(** * JointTransform over TensorDicts (causica/distributions/transforms.py)

    A shallow embedding of [JointTransform], the wrapper that applies one
    [torch.distributions.Transform] per key of a [TensorDict].

    - [Py]: the exceptions the module raises.
    - [Torch]: the part of the [torch] capability the class relies on
      (tensors, [ones_like], the [Transform] base class).
    - [Eff]: a small state-and-exception monad over a store of [TensorDict]
      objects and a log of the calls made on component transforms.
    - [TensorDict]: [keys], [__getitem__], [clone] and [update] on store
      objects.
    - [JointTransform]: the class itself.
    - [Example]: a small registry and store on which the class is run.

    Dictionaries are finite maps; a comprehension or a generator walks a
    dictionary in the order [map_to_list] lists it.  No statement below
    depends on that order.  The properties follow the definitions. *)

From stdpp Require Import gmap strings list fin_maps.
From Stdlib Require Import ZArith.

(** ** Exceptions and object identities *)

Module Py.

Inductive exn :=
| ValueError (msg : string)
| AssertionError (msg : string)
| KeyError (key : string).

Definition loc := positive.

(** The text an exception carries. *)
Definition message (e : exn) : string :=
  match e with
  | ValueError msg => msg
  | AssertionError msg => msg
  | KeyError key => key
  end.

(** Whether [key] occurs in the text [msg]. *)
Fixpoint mentions (msg key : string) : bool :=
  String.prefix key msg ||
  match msg with
  | EmptyString => false
  | String _ msg' => mentions msg' key
  end.

End Py.

(** ** Tensors and the Transform base class *)

Module Torch.

Section Capability.
Context {scalar constraint : Type}.

(** A tensor is a shape together with its entries in row-major order. *)
Record Tensor := MkTensor { shape : list nat; data : list scalar }.

#[global] Instance Tensor_inhabited : Inhabited Tensor :=
  populate (MkTensor [] []).

(** Modelled from the spec: [torch.ones_like] is library code; it gives a
    tensor of the same shape filled with the value one. *)
Definition ones_like (one : scalar) (t : Tensor) : Tensor :=
  MkTensor (shape t) (replicate (length (data t)) one).

(** An instance of [torch.distributions.Transform]: its class name, its
    cache size and the methods and attributes [JointTransform] uses. *)
Record Transform := MkTransform {
  type_name : string;
  _cache_size : Z;
  call : Tensor → Tensor;
  inv : Tensor → Tensor;
  log_abs_det_jacobian : Tensor → Tensor → Tensor;
  bijective : bool;
  domain : constraint;
  codomain : constraint
}.

Definition set_cache_size (n : Z) (t : Transform) : Transform :=
  MkTransform (type_name t) n (call t) (inv t) (log_abs_det_jacobian t)
              (bijective t) (domain t) (codomain t).

(** Modelled from the spec: [Transform.__init__] is library code; the cache
    size is 0 or 1 and any other value is rejected with a [ValueError]. *)
Definition __init__ (cache_size : Z) : Py.exn + unit :=
  if bool_decide (cache_size = 0%Z) then inr tt
  else if bool_decide (cache_size = 1%Z) then inr tt
  else inl (Py.ValueError "cache_size must be 0 or 1").

(** Modelled from the spec: [Transform.with_cache] is library code; it
    returns the transform itself when the cache size already agrees and
    otherwise a copy built with the requested cache size. *)
Definition with_cache (t : Transform) (cache_size : Z) : Py.exn + Transform :=
  if bool_decide (_cache_size t = cache_size) then inr t
  else match __init__ cache_size with
       | inl e => inl e
       | inr _ => inr (set_cache_size cache_size t)
       end.

(** A value of the [transformations] dictionary before it is checked:
    Python lets the caller put any object there. *)
Inductive pyobj :=
| PyTransform (t : Transform)
| PyOther (ty : string).

(** [isinstance(o, td.Transform)] *)
Definition isinstance_Transform (o : pyobj) : bool :=
  match o with PyTransform _ => true | PyOther _ => false end.

(** [type(o)], as its printed name. *)
Definition type_of (o : pyobj) : string :=
  match o with PyTransform t => type_name t | PyOther ty => ty end.

Definition as_Transform (o : pyobj) : option Transform :=
  match o with PyTransform t => Some t | PyOther _ => None end.
End Capability.

Arguments Tensor : clear implicits.
Arguments Transform : clear implicits.
Arguments pyobj : clear implicits.

End Torch.

(** ** Store and monad *)

Module Eff.

Import Py.

Section Monad.
Context {scalar : Type}.
Local Abbreviation Tensor := (Torch.Tensor scalar).

(** One call made on the component transform registered under [key]. *)
Inductive event :=
| EvCall (key : string) (x : Tensor)
| EvInv (key : string) (y : Tensor)
| EvLogAbsDetJacobian (key : string) (x y : Tensor).

(** The store maps object identities to the fields of a [TensorDict]. *)
Record world := World {
  heap : gmap loc (gmap string Tensor);
  log : list event
}.

Definition M (A : Type) : Type := world → (exn + A) * world.

Definition ret {A} (a : A) : M A := λ w, (inr a, w).
Definition raise {A} (e : exn) : M A := λ w, (inl e, w).
Definition bind {A B} (c : M A) (k : A → M B) : M B :=
  λ w, match c w with
       | (inr a, w') => k a w'
       | (inl e, w') => (inl e, w')
       end.

Definition lift {A} (r : exn + A) : M A :=
  match r with inl e => raise e | inr a => ret a end.

(** Record a call on a component transform. *)
Definition emit (e : event) : M unit :=
  λ w, (inr tt, World (heap w) (log w ++ [e])).
End Monad.

Arguments event : clear implicits.
Arguments world : clear implicits.
Arguments M : clear implicits.

End Eff.

Notation "'do' x <- c ;; k" := (Eff.bind c (λ x, k))
  (at level 10, x name, c at level 99, k at level 200).
Notation "'exec' c ;; k" := (Eff.bind c (λ _, k))
  (at level 10, c at level 99, k at level 200).

Section Loops.
Context {scalar : Type}.
Local Abbreviation M := (Eff.M scalar).

(** A dictionary comprehension [{k: v for i in l}]: the entries are
    computed and stored in iteration order, a later entry replacing an
    earlier one under the same key. *)
Fixpoint dict_comp {I B} (f : I → M (string * B)) (l : list I)
    (acc : gmap string B) : M (gmap string B) :=
  match l with
  | [] => Eff.ret acc
  | i :: l' => do kv <- f i ;; dict_comp f l' (<[kv.1 := kv.2]> acc)
  end.

(** [all(f(i) for i in l)]: stops at the first false element. *)
Fixpoint all {I} (f : I → M bool) (l : list I) : M bool :=
  match l with
  | [] => Eff.ret true
  | i :: l' => do b <- f i ;; if b then all f l' else Eff.ret false
  end.
End Loops.

(** ** The part of TensorDict the class uses *)

Module TensorDict.

Import Py.

Section Ops.
Context {scalar : Type}.
Local Abbreviation Tensor := (Torch.Tensor scalar).
Local Abbreviation M := (Eff.M scalar).

(** The fields of the object at [x]; an address outside the store reads as
    the empty container. *)
Definition fields (w : Eff.world scalar) (x : loc) : gmap string Tensor :=
  Eff.heap w !!! x.

(** [x.keys()] *)
Definition keys (x : loc) : M (gset string) :=
  λ w, (inr (dom (fields w x)), w).

(** [x[key]] *)
Definition getitem (x : loc) (key : string) : M Tensor :=
  λ w, match fields w x !! key with
       | Some v => (inr v, w)
       | None => (inl (KeyError key), w)
       end.

(** [x.clone()]: a new object holding copies of the fields of [x]. *)
Definition clone (x : loc) : M loc :=
  λ w, let c := fresh (dom (Eff.heap w)) in
       (inr c, Eff.World (<[c := fields w x]> (Eff.heap w)) (Eff.log w)).

(** [x.update(d)]: overwrites the fields named in [d] in place and
    returns [x] itself. *)
Definition update (x : loc) (d : gmap string Tensor) : M loc :=
  λ w, (inr x, Eff.World (<[x := d ∪ fields w x]> (Eff.heap w)) (Eff.log w)).
End Ops.

End TensorDict.

(** ** The JointTransform class *)

Module JointTransform.

Import Py.

Section Class.
Context {scalar constraint : Type}.
Local Abbreviation Tensor := (Torch.Tensor scalar).
Local Abbreviation Transform := (Torch.Transform scalar constraint).
Local Abbreviation pyobj := (Torch.pyobj scalar constraint).
Local Abbreviation M := (Eff.M scalar).

(** An instance: the attribute [transformations] and the cache size the
    base class keeps. *)
Record instance := Build {
  transformations : gmap string Transform;
  _cache_size : Z
}.

(** The values of a dictionary, in iteration order. *)
Definition values {A} (d : gmap string A) : list A := (map_to_list d).*2.

(** The message of the assertion in [__init__]; [types] is the list
    [[type(t) for t in transformations.values()]]. *)
Definition assert_message (types : list string) : string :=
  "All transformations must be of type torch.distributions.Transform, but are ["
    +:+ String.concat ", " types +:+ "].".

Definition __init__ (transformations : gmap string pyobj) (cache_size : Z)
    : M instance :=
  do ok <- all (λ t, Eff.ret (Torch.isinstance_Transform t))
               (values transformations) ;;
  if negb ok then
    Eff.raise (AssertionError
                 (assert_message (Torch.type_of <$> values transformations)))
  else
    (* past the assertion every value is a [Transform] *)
    let checked := omap Torch.as_Transform transformations in
    do transformations <-
      (if bool_decide (cache_size ≠ 0%Z) then
         dict_comp (λ '(key, t),
                      do t' <- Eff.lift (Torch.with_cache t cache_size) ;;
                      Eff.ret (key, t'))
                   (map_to_list checked) ∅
       else Eff.ret checked) ;;
    exec Eff.lift (Torch.__init__ cache_size) ;;
    Eff.ret (Build transformations cache_size).

(** [transform(v)] on the transform registered under [key]. *)
Definition apply_call (key : string) (transform : Transform) (v : Tensor)
    : M Tensor :=
  exec Eff.emit (Eff.EvCall key v) ;; Eff.ret (Torch.call transform v).

(** [transform.inv(v)] *)
Definition apply_inv (key : string) (transform : Transform) (v : Tensor)
    : M Tensor :=
  exec Eff.emit (Eff.EvInv key v) ;; Eff.ret (Torch.inv transform v).

(** [transform.log_abs_det_jacobian(xv, yv)] *)
Definition apply_log_abs_det_jacobian (key : string) (transform : Transform)
    (xv yv : Tensor) : M Tensor :=
  exec Eff.emit (Eff.EvLogAbsDetJacobian key xv yv) ;;
  Eff.ret (Torch.log_abs_det_jacobian transform xv yv).

Definition _call (self : instance) (x : loc) : M loc :=
  do ks <- TensorDict.keys x ;;
  if negb (bool_decide (dom (transformations self) ⊆ ks)) then
    Eff.raise (ValueError "All keys in transformations must be in x.")
  else
    do c <- TensorDict.clone x ;;
    do d <- dict_comp (λ '(key, transform),
                         do v <- TensorDict.getitem x key ;;
                         do r <- apply_call key transform v ;;
                         Eff.ret (key, r))
                      (map_to_list (transformations self)) ∅ ;;
    TensorDict.update c d.

Definition _inverse (self : instance) (y : loc) : M loc :=
  do ks <- TensorDict.keys y ;;
  if negb (bool_decide (dom (transformations self) ⊆ ks)) then
    Eff.raise (ValueError "All keys in transformations must be in y.")
  else
    do c <- TensorDict.clone y ;;
    do d <- dict_comp (λ '(key, transform),
                         do v <- TensorDict.getitem y key ;;
                         do r <- apply_inv key transform v ;;
                         Eff.ret (key, r))
                      (map_to_list (transformations self)) ∅ ;;
    TensorDict.update c d.

Definition log_abs_det_jacobian (one : scalar) (self : instance) (x y : loc)
    : M loc :=
  do kx <- TensorDict.keys x ;;
  do ky <- TensorDict.keys y ;;
  if bool_decide (kx ≠ ky) then
    Eff.raise (ValueError "x and y must have the same keys.")
  else
    do ks <- TensorDict.keys x ;;
    if negb (bool_decide (dom (transformations self) ⊆ ks)) then
      Eff.raise (ValueError "All keys in transformations must be in x and y.")
    else
      do c <- TensorDict.clone x ;;
      do keys <- TensorDict.keys x ;;
      do d <- dict_comp (λ key,
                           match transformations self !! key with
                           | Some transform =>
                               do xv <- TensorDict.getitem x key ;;
                               do yv <- TensorDict.getitem y key ;;
                               do r <- apply_log_abs_det_jacobian
                                         key transform xv yv ;;
                               Eff.ret (key, r)
                           | None =>
                               do xv <- TensorDict.getitem x key ;;
                               Eff.ret (key, Torch.ones_like one xv)
                           end)
                        (elements keys) ∅ ;;
      TensorDict.update c d.

(** The property [bijective]; reading [t.bijective] is an attribute
    access. *)
Definition bijective (self : instance) : M bool :=
  all (λ t, Eff.ret (Torch.bijective t)) (values (transformations self)).

(** The property [domain]. *)
Definition domain (self : instance) : M (gmap string constraint) :=
  dict_comp (λ '(key, t), Eff.ret (key, Torch.domain t))
            (map_to_list (transformations self)) ∅.

(** The property [codomain]. *)
Definition codomain (self : instance) : M (gmap string constraint) :=
  dict_comp (λ '(key, t), Eff.ret (key, Torch.codomain t))
            (map_to_list (transformations self)) ∅.
End Class.

Arguments instance : clear implicits.

End JointTransform.

(** ** Functional summaries used in the proofs *)

Section Summaries.
Context {scalar constraint : Type}.
Local Abbreviation Tensor := (Torch.Tensor scalar).
Local Abbreviation Transform := (Torch.Transform scalar constraint).

(** The fields of [xd] with the method [m] of the registered transform
    applied under every registered key. *)
Definition mapped (m : Transform → Tensor → Tensor)
    (reg : gmap string Transform) (xd : gmap string Tensor) : gmap string Tensor :=
  list_to_map ((λ kv, (kv.1, m kv.2 (xd !!! kv.1))) <$> map_to_list reg) ∪ xd.

(** The calls made while doing so, in iteration order. *)
Definition calls (e : string → Tensor → Eff.event scalar)
    (reg : gmap string Transform) (xd : gmap string Tensor) : list (Eff.event scalar) :=
  (λ kv, e kv.1 (xd !!! kv.1)) <$> map_to_list reg.

(** The transform [t.with_cache(1)] returns. *)
Definition cache_enabled (t : Transform) : Transform :=
  if bool_decide (Torch._cache_size t = 1%Z) then t else Torch.set_cache_size 1 t.

(** The Jacobian term stored under [key]. *)
Definition jacobian_term (one : scalar) (reg : gmap string Transform)
    (xd yd : gmap string Tensor) (key : string) : Tensor :=
  match reg !! key with
  | Some t => Torch.log_abs_det_jacobian t (xd !!! key) (yd !!! key)
  | None => Torch.ones_like one (xd !!! key)
  end.

Definition jacobian_calls (reg : gmap string Transform)
    (xd yd : gmap string Tensor) (key : string) : list (Eff.event scalar) :=
  match reg !! key with
  | Some t => [Eff.EvLogAbsDetJacobian key (xd !!! key) (yd !!! key)]
  | None => []
  end.

Definition jacobian_fields (one : scalar) (reg : gmap string Transform)
    (xd yd : gmap string Tensor) : gmap string Tensor :=
  list_to_map ((λ key, (key, jacobian_term one reg xd yd key))
                 <$> elements (dom xd)) ∪ xd.
End Summaries.

(** ** A concrete registry used to exercise the statements *)

Module Example.

(** A one-dimensional tensor of integers. *)
Definition vec (l : list Z) : Torch.Tensor Z := Torch.MkTensor [length l] l.

Definition pointwise (f : Z → Z) (t : Torch.Tensor Z) : Torch.Tensor Z :=
  Torch.MkTensor (Torch.shape t) (f <$> Torch.data t).

(** A bijective transform: adds one to every entry; its Jacobian term is
    zero everywhere. *)
Definition Shift : Torch.Transform Z string :=
  Torch.MkTransform "<class 'ShiftTransform'>" 0
    (pointwise (λ z, z + 1)%Z) (pointwise (λ z, z - 1)%Z)
    (λ x _, pointwise (λ _, 0%Z) x)
    true "real" "real".

(** A transform that is not bijective: the absolute value. *)
Definition Abs : Torch.Transform Z string :=
  Torch.MkTransform "<class 'AbsTransform'>" 0
    (pointwise Z.abs) (pointwise (λ z, z))
    (λ x _, pointwise (λ _, 0%Z) x)
    false "real" "positive".

Definition self_a : JointTransform.instance Z string :=
  JointTransform.Build {[ "a" := Shift ]} 0.

Definition self_height : JointTransform.instance Z string :=
  JointTransform.Build {[ "height" := Shift ]} 0.

Definition self_empty : JointTransform.instance Z string :=
  JointTransform.Build ∅ 0.

Definition self_b : JointTransform.instance Z string :=
  JointTransform.Build {[ "b" := Shift ]} 0.

Definition self_abs : JointTransform.instance Z string :=
  JointTransform.Build {[ "a" := Shift; "b" := Abs ]} 0.

(** The containers [{"a": [0], "b": [5]}] and [{"b": [5]}]. *)
Definition x1 : gmap string (Torch.Tensor Z) :=
  {[ "a" := vec [0%Z]; "b" := vec [5%Z] ]}.

Definition x2 : gmap string (Torch.Tensor Z) := {[ "b" := vec [5%Z] ]}.

(** A container with the keys of [x1] that differs from it under ["b"]. *)
Definition x3 : gmap string (Torch.Tensor Z) :=
  {[ "a" := vec [0%Z]; "b" := vec [7%Z] ]}.

(** A store with [x1] at address 1 and [x3] at address 2. *)
Definition w1 : Eff.world Z :=
  Eff.World {[ 1%positive := x1; 2%positive := x3 ]} [].

(** A store with [x1] at address 1 and [x2] at address 2. *)
Definition w0 : Eff.world Z :=
  Eff.World {[ 1%positive := x1; 2%positive := x2 ]} [].

End Example.

(** * Properties *)

Section StringLemmas.

Lemma string_app_assoc (s1 s2 s3 : string) :
  (s1 +:+ s2) +:+ s3 = s1 +:+ (s2 +:+ s3).
Proof.
  induction s1 as [|a s1 IH]; [done|].
  change (String a ((s1 +:+ s2) +:+ s3) = String a (s1 +:+ (s2 +:+ s3))).
  by rewrite IH.
Qed.

Lemma string_app_empty_r (s : string) : s +:+ "" = s.
Proof.
  induction s as [|a s IH]; [done|].
  change (String a (s +:+ "") = String a s). by rewrite IH.
Qed.

Lemma prefix_app (key post : string) : String.prefix key (key +:+ post) = true.
Proof.
  induction key as [|a key IH]; [by destruct post|].
  change (String.prefix (String a key) (String a (key +:+ post)) = true).
  simpl. by destruct (Ascii.ascii_dec a a).
Qed.

Lemma mentions_prefix (msg key : string) :
  String.prefix key msg = true → Py.mentions msg key = true.
Proof. intros H. destruct msg; cbn [Py.mentions]; by rewrite H. Qed.

(** A text mentions every string it is built around. *)
Lemma mentions_app (pre key post : string) :
  Py.mentions (pre +:+ key +:+ post) key = true.
Proof.
  induction pre as [|a pre IH].
  - change ("" +:+ key +:+ post) with (key +:+ post).
    apply mentions_prefix, prefix_app.
  - change (String a pre +:+ key +:+ post) with (String a (pre +:+ key +:+ post)).
    cbn [Py.mentions]. rewrite IH. apply orb_true_r.
Qed.

Lemma concat_decompose (sep : string) (l : list string) (ty : string) :
  ty ∈ l → ∃ pre post, String.concat sep l = pre +:+ ty +:+ post.
Proof.
  induction l as [|s l IH]; intros Hin; [by apply not_elem_of_nil in Hin|].
  apply elem_of_cons in Hin as [->|Hin].
  - destruct l as [|s' l]; simpl.
    + exists "", "". symmetry. apply string_app_empty_r.
    + by exists "", (sep +:+ String.concat sep (s' :: l)).
  - destruct (IH Hin) as (pre & post & Hc).
    destruct l as [|s' l]; [by apply not_elem_of_nil in Hin|].
    change (String.concat sep (s :: s' :: l))
      with (s +:+ sep +:+ String.concat sep (s' :: l)).
    rewrite Hc. exists (s +:+ sep +:+ pre), post.
    by rewrite !string_app_assoc.
Qed.

Lemma assert_message_mentions (types : list string) (ty : string) :
  ty ∈ types → Py.mentions (JointTransform.assert_message types) ty = true.
Proof.
  intros Hin. destruct (concat_decompose ", " types ty Hin) as (pre & post & Hc).
  unfold JointTransform.assert_message. rewrite Hc.
  rewrite !string_app_assoc, <- (string_app_assoc _ pre).
  apply mentions_app.
Qed.
End StringLemmas.

Section LoopLemmas.
Context {scalar : Type}.
Local Abbreviation M := (Eff.M scalar).

Lemma world_eta (w : Eff.world scalar) :
  Eff.World (Eff.heap w) (Eff.log w) = w.
Proof. by destruct w. Qed.

(** A comprehension whose body reads the store and logs calls, without
    failing, yields the folded dictionary and the concatenated log. *)
Lemma dict_comp_run {I B} (f : I → M (string * B)) (g : I → string * B)
    (ev : I → list (Eff.event scalar)) (l : list I) acc w :
  (∀ i h lg, i ∈ l → h = Eff.heap w →
     f i (Eff.World h lg) = (inr (g i), Eff.World h (lg ++ ev i))) →
  dict_comp f l acc w =
    (inr (foldl (λ m kv, <[kv.1 := kv.2]> m) acc (g <$> l)),
     Eff.World (Eff.heap w) (Eff.log w ++ mjoin (ev <$> l))).
Proof.
  revert acc w. induction l as [|i l IH]; intros acc w Hf; simpl.
  - by rewrite app_nil_r, world_eta.
  - unfold Eff.bind. rewrite <- (world_eta w) at 1.
    rewrite (Hf i _ _ (list_elem_of_here _ _) eq_refl).
    rewrite IH; simpl.
    + by rewrite <- app_assoc.
    + intros j h lg Hj ->. apply Hf; [by constructor | done].
Qed.

Lemma foldl_insert_list_to_map {B} (l : list (string * B)) (acc : gmap string B) :
  NoDup l.*1 →
  foldl (λ m kv, <[kv.1 := kv.2]> m) acc l = list_to_map l ∪ acc.
Proof.
  revert acc. induction l as [|[k v] l IH]; intros acc Hnd; simpl.
  - by rewrite (left_id_L ∅ (∪)).
  - inversion_clear Hnd as [|?? Hk Hl]. rewrite IH by done. simpl.
    rewrite <- insert_union_l. symmetry. apply insert_union_r.
    by apply not_elem_of_list_to_map_1.
Qed.

(** Lookup in a dictionary built from the items of [m]. *)
Lemma lookup_items_map {A B} (h : string → A → B) (m : gmap string A) k :
  (list_to_map ((λ kv, (kv.1, h kv.1 kv.2)) <$> map_to_list m) : gmap string B) !! k
  = h k <$> m !! k.
Proof.
  assert (Hfst : ((λ kv : string * A, (kv.1, h kv.1 kv.2)) <$> map_to_list m).*1
                 = (map_to_list m).*1).
  { rewrite <- list_fmap_compose. by apply list_fmap_ext. }
  destruct (m !! k) as [a|] eqn:Hk; simpl.
  - apply elem_of_list_to_map_1.
    + rewrite Hfst. apply NoDup_fst_map_to_list.
    + apply list_elem_of_fmap. exists (k, a). split; [done|].
      by apply elem_of_map_to_list.
  - apply not_elem_of_list_to_map_1. rewrite Hfst.
    intros Hin. apply list_elem_of_fmap in Hin as [[k' a] [-> Hin]].
    apply elem_of_map_to_list in Hin. simpl in *. congruence.
Qed.

Lemma fst_keys_map {B} (h : string → B) (l : list string) :
  ((λ key, (key, h key)) <$> l).*1 = l.
Proof. induction l as [|k l IH]; csimpl; [done|by rewrite IH]. Qed.

(** Lookup in a dictionary built from a list of keys. *)
Lemma lookup_keys_map {B} (h : string → B) (l : list string) k :
  (list_to_map ((λ key, (key, h key)) <$> l) : gmap string B) !! k
  = if decide (k ∈ l) then Some (h k) else None.
Proof.
  induction l as [|k' l IH]; csimpl; [done|].
  destruct (decide (k' = k)) as [->|Hne].
  - rewrite lookup_insert_eq. rewrite decide_True; [done|by constructor].
  - rewrite lookup_insert_ne by done. rewrite IH.
    destruct (decide (k ∈ l)) as [Hin|Hnin].
    + rewrite decide_True; [done|by constructor].
    + rewrite decide_False; [done|]. intros Hin. inversion Hin; by subst.
Qed.

Lemma mjoin_singletons {I E} (f : I → E) (l : list I) :
  mjoin ((λ i, [f i]) <$> l) = f <$> l.
Proof. induction l as [|i l IH]; csimpl; [done|by rewrite IH]. Qed.

Lemma mjoin_nils {I E} (l : list I) :
  mjoin ((λ _, @nil E) <$> l) = [].
Proof. induction l as [|i l IH]; csimpl; done. Qed.

(** A comprehension whose body neither fails nor touches the store. *)
Lemma dict_comp_pure {A B} (h : string → A → B) (m : gmap string A)
    (w : Eff.world scalar) :
  dict_comp (λ '(key, a), Eff.ret (key, h key a)) (map_to_list m) ∅ w
  = (inr (map_imap (λ key a, Some (h key a)) m), w).
Proof.
  rewrite (dict_comp_run _ (λ kv, (kv.1, h kv.1 kv.2)) (λ _, [])).
  - rewrite mjoin_nils, app_nil_r, world_eta.
    rewrite foldl_insert_list_to_map.
    + rewrite (right_id_L ∅ (∪)). do 2 f_equal. apply map_eq. intros k.
      rewrite lookup_items_map, map_lookup_imap. by destruct (m !! k).
    + rewrite <- list_fmap_compose. apply NoDup_fst_map_to_list.
  - intros [key a] h' lg _ _. simpl. unfold Eff.ret. by rewrite app_nil_r.
Qed.

(** [all] over attribute reads is [forallb] and leaves the store alone. *)
Lemma all_ret_run {I} (p : I → bool) (l : list I) (w : Eff.world scalar) :
  all (λ i, Eff.ret (p i)) l w = (inr (forallb p l), w).
Proof.
  induction l as [|i l IH]; simpl; [done|].
  unfold Eff.bind, Eff.ret at 1. destruct (p i); simpl; [apply IH | done].
Qed.

Lemma forallb_values {A} (p : A → bool) (m : gmap string A) :
  forallb p (JointTransform.values m) = true ↔ map_Forall (λ _ a, p a = true) m.
Proof.
  unfold JointTransform.values. rewrite forallb_forall. split.
  - intros Hall k a Hk. apply Hall, list_elem_of_In, list_elem_of_fmap.
    exists (k, a). split; [done|]. by apply elem_of_map_to_list.
  - intros Hall a Hin. apply list_elem_of_In, list_elem_of_fmap in Hin
      as [[k a'] [-> Hin]].
    apply elem_of_map_to_list in Hin. by apply (Hall k).
Qed.
End LoopLemmas.

Section StoreLemmas.
Context {scalar constraint : Type}.
Local Abbreviation Tensor := (Torch.Tensor scalar).
Local Abbreviation Transform := (Torch.Transform scalar constraint).
Local Abbreviation M := (Eff.M scalar).
Local Abbreviation world := (Eff.world scalar).

Implicit Types (w : world) (x y c : Py.loc) (lg : list (Eff.event scalar)).
Implicit Types (reg : gmap string Transform) (h : gmap Py.loc (gmap string Tensor)).

(** Cloning [x] does not change what [x] holds, whatever address the
    clone receives. *)
Lemma fields_insert_same w lg x c :
  TensorDict.fields (Eff.World (<[c := TensorDict.fields w x]> (Eff.heap w)) lg) x
  = TensorDict.fields w x.
Proof.
  unfold TensorDict.fields; simpl. destruct (decide (c = x)) as [->|Hne].
  - by rewrite lookup_total_insert_eq.
  - by rewrite lookup_total_insert_ne.
Qed.

Lemma fields_insert_eq h lg c (v : gmap string Tensor) :
  TensorDict.fields (Eff.World (<[c := v]> h) lg) c = v.
Proof. unfold TensorDict.fields; simpl. by rewrite lookup_total_insert_eq. Qed.

Lemma getitem_run w x key v :
  TensorDict.fields w x !! key = Some v →
  TensorDict.getitem x key w = (inr v, w).
Proof. intros Hv. unfold TensorDict.getitem. by rewrite Hv. Qed.

Lemma lookup_covered (xd : gmap string Tensor) (ks : gset string) key :
  ks ⊆ dom xd → key ∈ ks → xd !! key = Some (xd !!! key).
Proof.
  intros Hsub Hin. apply Hsub, elem_of_dom in Hin as [v Hv].
  rewrite Hv. f_equal. symmetry. by apply lookup_total_correct.
Qed.

(** The comprehension over the items of the registry that [_call] and
    [_inverse] share: [app] is the method applied to each field. *)
Lemma items_comp_run (app : string → Transform → Tensor → M Tensor)
    (m : Transform → Tensor → Tensor) (e : string → Tensor → Eff.event scalar)
    reg x w :
  (∀ key t v w', app key t v w'
     = (inr (m t v), Eff.World (Eff.heap w') (Eff.log w' ++ [e key v]))) →
  dom reg ⊆ dom (TensorDict.fields w x) →
  dict_comp (λ '(key, transform),
               do v <- TensorDict.getitem x key ;;
               do r <- app key transform v ;;
               Eff.ret (key, r))
            (map_to_list reg) ∅ w
  = (inr (list_to_map ((λ kv, (kv.1, m kv.2 (TensorDict.fields w x !!! kv.1)))
                         <$> map_to_list reg)),
     Eff.World (Eff.heap w)
       (Eff.log w ++ ((λ kv, e kv.1 (TensorDict.fields w x !!! kv.1))
                        <$> map_to_list reg))).
Proof.
  intros Happ Hsub.
  rewrite (dict_comp_run _
             (λ kv, (kv.1, m kv.2 (TensorDict.fields w x !!! kv.1)))
             (λ kv, [e kv.1 (TensorDict.fields w x !!! kv.1)])).
  - rewrite foldl_insert_list_to_map.
    + rewrite (right_id_L ∅ (∪)).
      by rewrite (mjoin_singletons (λ kv, e kv.1 (TensorDict.fields w x !!! kv.1))).
    + rewrite <- list_fmap_compose. apply NoDup_fst_map_to_list.
  - intros [key t] h lg Hin ->. simpl.
    apply elem_of_map_to_list in Hin.
    assert (Hkey : key ∈ dom reg) by (apply elem_of_dom; eauto).
    unfold Eff.bind.
    rewrite (getitem_run _ _ _ (TensorDict.fields w x !!! key)).
    + by rewrite Happ.
    + change (TensorDict.fields (Eff.World (Eff.heap w) lg) x)
        with (TensorDict.fields w x).
      by apply (lookup_covered _ (dom reg)).
Qed.

Lemma fields_fresh_insert w y (v : gmap string Tensor) lg key :
  key ∈ dom (TensorDict.fields w y) →
  TensorDict.fields (Eff.World (<[fresh (dom (Eff.heap w)) := v]> (Eff.heap w)) lg) y
  = TensorDict.fields w y.
Proof.
  unfold TensorDict.fields; simpl. intros Hkey.
  destruct (Eff.heap w !! y) as [yd|] eqn:Hy.
  - apply lookup_total_insert_ne. intros <-.
    apply (is_fresh (dom (Eff.heap w))), elem_of_dom. eauto.
  - rewrite lookup_total_alt, Hy in Hkey. simpl in Hkey. set_solver.
Qed.

Lemma lookup_mapped (m : Transform → Tensor → Tensor) reg
    (xd : gmap string Tensor) k :
  dom reg ⊆ dom xd →
  mapped m reg xd !! k
  = match reg !! k with Some t => m t <$> xd !! k | None => xd !! k end.
Proof.
  intros Hsub. unfold mapped.
  pose proof (lookup_items_map (λ key t, m t (xd !!! key)) reg k) as Hd.
  destruct (reg !! k) as [t|] eqn:Hk; simpl in Hd.
  - rewrite (lookup_union_Some_l _ _ _ _ Hd).
    rewrite (lookup_covered xd (dom reg) k Hsub); [done|].
    apply elem_of_dom; eauto.
  - by rewrite (lookup_union_r _ _ _ Hd).
Qed.

Lemma dom_mapped (m : Transform → Tensor → Tensor) reg (xd : gmap string Tensor) :
  dom reg ⊆ dom xd → dom (mapped m reg xd) = dom xd.
Proof.
  intros Hsub. apply set_eq. intros k. rewrite !elem_of_dom.
  rewrite lookup_mapped by done.
  destruct (reg !! k); [|done]. by rewrite fmap_is_Some.
Qed.

Lemma lookup_jacobian_fields one reg (xd yd : gmap string Tensor) k :
  jacobian_fields one reg xd yd !! k
  = if decide (k ∈ dom xd) then Some (jacobian_term one reg xd yd k) else None.
Proof.
  unfold jacobian_fields.
  pose proof (lookup_keys_map (jacobian_term one reg xd yd) (elements (dom xd)) k) as Hd.
  destruct (decide (k ∈ dom xd)) as [Hin|Hnin].
  - rewrite decide_True in Hd by (by apply elem_of_elements).
    by rewrite (lookup_union_Some_l _ _ _ _ Hd).
  - rewrite decide_False in Hd by (by rewrite elem_of_elements).
    rewrite (lookup_union_r _ _ _ Hd). by apply not_elem_of_dom.
Qed.

Lemma dom_jacobian_fields one reg (xd yd : gmap string Tensor) :
  dom (jacobian_fields one reg xd yd) = dom xd.
Proof.
  apply set_eq. intros k. rewrite elem_of_dom, lookup_jacobian_fields.
  destruct (decide (k ∈ dom xd)); [by split; eauto|].
  split; [by intros [? ?]|done].
Qed.
End StoreLemmas.

Section RunLemmas.
Context {scalar constraint : Type}.
Local Abbreviation Tensor := (Torch.Tensor scalar).
Local Abbreviation Transform := (Torch.Transform scalar constraint).
Local Abbreviation instance := (JointTransform.instance scalar constraint).
Local Abbreviation world := (Eff.world scalar).

Implicit Types (self : instance) (w : world) (x y : Py.loc).

Lemma apply_call_run key (t : Transform) v w :
  JointTransform.apply_call key t v w
  = (inr (Torch.call t v), Eff.World (Eff.heap w) (Eff.log w ++ [Eff.EvCall key v])).
Proof. done. Qed.

Lemma apply_inv_run key (t : Transform) v w :
  JointTransform.apply_inv key t v w
  = (inr (Torch.inv t v), Eff.World (Eff.heap w) (Eff.log w ++ [Eff.EvInv key v])).
Proof. done. Qed.

(** [_call] when the keys of [x] cover the registry. *)
Lemma _call_run self x w :
  dom (JointTransform.transformations self) ⊆ dom (TensorDict.fields w x) →
  JointTransform._call self x w
  = (inr (fresh (dom (Eff.heap w))),
     Eff.World
       (<[fresh (dom (Eff.heap w)) :=
            mapped Torch.call (JointTransform.transformations self)
                   (TensorDict.fields w x)]> (Eff.heap w))
       (Eff.log w ++ calls Eff.EvCall (JointTransform.transformations self)
                           (TensorDict.fields w x))).
Proof.
  intros Hsub. unfold JointTransform._call, Eff.bind at 1, TensorDict.keys.
  rewrite bool_decide_eq_true_2 by done. simpl.
  unfold Eff.bind at 1, TensorDict.clone at 1. simpl.
  unfold Eff.bind at 1.
  rewrite (items_comp_run JointTransform.apply_call Torch.call Eff.EvCall).
  - unfold TensorDict.update, mapped, calls. simpl.
    by rewrite fields_insert_same, fields_insert_eq, insert_insert_eq.
  - intros. apply apply_call_run.
  - by rewrite fields_insert_same.
Qed.

(** [_call] when some registered key is missing from [x]. *)
Lemma _call_fail self x w :
  ¬ dom (JointTransform.transformations self) ⊆ dom (TensorDict.fields w x) →
  JointTransform._call self x w
  = (inl (Py.ValueError "All keys in transformations must be in x."), w).
Proof.
  intros Hsub. unfold JointTransform._call, Eff.bind at 1, TensorDict.keys.
  by rewrite bool_decide_eq_false_2.
Qed.

(** [_inverse] when the keys of [y] cover the registry. *)
Lemma _inverse_run self y w :
  dom (JointTransform.transformations self) ⊆ dom (TensorDict.fields w y) →
  JointTransform._inverse self y w
  = (inr (fresh (dom (Eff.heap w))),
     Eff.World
       (<[fresh (dom (Eff.heap w)) :=
            mapped Torch.inv (JointTransform.transformations self)
                   (TensorDict.fields w y)]> (Eff.heap w))
       (Eff.log w ++ calls Eff.EvInv (JointTransform.transformations self)
                           (TensorDict.fields w y))).
Proof.
  intros Hsub. unfold JointTransform._inverse, Eff.bind at 1, TensorDict.keys.
  rewrite bool_decide_eq_true_2 by done. simpl.
  unfold Eff.bind at 1, TensorDict.clone at 1. simpl.
  unfold Eff.bind at 1.
  rewrite (items_comp_run JointTransform.apply_inv Torch.inv Eff.EvInv).
  - unfold TensorDict.update, mapped, calls. simpl.
    by rewrite fields_insert_same, fields_insert_eq, insert_insert_eq.
  - intros. apply apply_inv_run.
  - by rewrite fields_insert_same.
Qed.

(** [_inverse] when some registered key is missing from [y]. *)
Lemma _inverse_fail self y w :
  ¬ dom (JointTransform.transformations self) ⊆ dom (TensorDict.fields w y) →
  JointTransform._inverse self y w
  = (inl (Py.ValueError "All keys in transformations must be in y."), w).
Proof.
  intros Hsub. unfold JointTransform._inverse, Eff.bind at 1, TensorDict.keys.
  by rewrite bool_decide_eq_false_2.
Qed.

(** [log_abs_det_jacobian] when [x] and [y] have different keys. *)
Lemma log_abs_det_jacobian_fail_keys one self x y w :
  dom (TensorDict.fields w x) ≠ dom (TensorDict.fields w y) →
  JointTransform.log_abs_det_jacobian one self x y w
  = (inl (Py.ValueError "x and y must have the same keys."), w).
Proof.
  intros Hne. unfold JointTransform.log_abs_det_jacobian.
  unfold Eff.bind at 1, TensorDict.keys at 1.
  unfold Eff.bind at 1, TensorDict.keys at 1.
  by rewrite bool_decide_eq_true_2.
Qed.

(** [log_abs_det_jacobian] when the keys agree and miss a registered key. *)
Lemma log_abs_det_jacobian_fail_cover one self x y w :
  dom (TensorDict.fields w x) = dom (TensorDict.fields w y) →
  ¬ dom (JointTransform.transformations self) ⊆ dom (TensorDict.fields w x) →
  JointTransform.log_abs_det_jacobian one self x y w
  = (inl (Py.ValueError "All keys in transformations must be in x and y."), w).
Proof.
  intros Heq Hsub. unfold JointTransform.log_abs_det_jacobian.
  unfold Eff.bind at 1, TensorDict.keys at 1.
  unfold Eff.bind at 1, TensorDict.keys at 1.
  rewrite bool_decide_eq_false_2 by (intros Hne; by apply Hne).
  unfold Eff.bind at 1, TensorDict.keys at 1.
  by rewrite bool_decide_eq_false_2.
Qed.

(** [log_abs_det_jacobian] when both preconditions hold. *)
Lemma log_abs_det_jacobian_run one self x y w :
  dom (TensorDict.fields w x) = dom (TensorDict.fields w y) →
  dom (JointTransform.transformations self) ⊆ dom (TensorDict.fields w x) →
  JointTransform.log_abs_det_jacobian one self x y w
  = (inr (fresh (dom (Eff.heap w))),
     Eff.World
       (<[fresh (dom (Eff.heap w)) :=
            jacobian_fields one (JointTransform.transformations self)
              (TensorDict.fields w x) (TensorDict.fields w y)]> (Eff.heap w))
       (Eff.log w ++
          mjoin (jacobian_calls (JointTransform.transformations self)
                   (TensorDict.fields w x) (TensorDict.fields w y)
                   <$> elements (dom (TensorDict.fields w x))))).
Proof.
  intros Heq Hsub. unfold JointTransform.log_abs_det_jacobian.
  unfold Eff.bind at 1, TensorDict.keys at 1.
  unfold Eff.bind at 1, TensorDict.keys at 1.
  rewrite bool_decide_eq_false_2 by (intros Hne; by apply Hne).
  unfold Eff.bind at 1, TensorDict.keys at 1.
  rewrite bool_decide_eq_true_2 by done. simpl.
  unfold Eff.bind at 1, TensorDict.clone at 1. simpl.
  unfold Eff.bind at 1, TensorDict.keys at 1.
  rewrite fields_insert_same.
  unfold Eff.bind at 1.
  rewrite (dict_comp_run _
    (λ key, (key, jacobian_term one (JointTransform.transformations self)
                    (TensorDict.fields w x) (TensorDict.fields w y) key))
    (jacobian_calls (JointTransform.transformations self)
       (TensorDict.fields w x) (TensorDict.fields w y))).
  - rewrite foldl_insert_list_to_map.
    + rewrite (right_id_L ∅ (∪)).
      unfold TensorDict.update, jacobian_fields. simpl.
      by rewrite fields_insert_eq, insert_insert_eq.
    + rewrite fst_keys_map. apply NoDup_elements.
  - intros key h lg Hin ->. simpl. apply elem_of_elements in Hin.
    assert (Hx : TensorDict.fields
                   (Eff.World (<[fresh (dom (Eff.heap w)) := TensorDict.fields w x]>
                                 (Eff.heap w)) lg) x !! key
                 = Some (TensorDict.fields w x !!! key)).
    { rewrite fields_insert_same. by apply (lookup_covered _ (dom (TensorDict.fields w x))). }
    unfold jacobian_term, jacobian_calls.
    destruct (JointTransform.transformations self !! key) as [t|] eqn:Hk.
    + unfold Eff.bind at 1. rewrite (getitem_run _ _ _ _ Hx).
      unfold Eff.bind at 1. rewrite (getitem_run _ _ _ (TensorDict.fields w y !!! key)).
      * done.
      * rewrite (fields_fresh_insert w y _ lg key) by (by rewrite <- Heq).
        apply (lookup_covered _ (dom (TensorDict.fields w y))); [done|by rewrite <- Heq].
    + unfold Eff.bind at 1. rewrite (getitem_run _ _ _ _ Hx).
      by rewrite app_nil_r.
Qed.
End RunLemmas.

Section InitLemmas.
Context {scalar constraint : Type}.
Local Abbreviation Tensor := (Torch.Tensor scalar).
Local Abbreviation Transform := (Torch.Transform scalar constraint).
Local Abbreviation pyobj := (Torch.pyobj scalar constraint).
Local Abbreviation instance := (JointTransform.instance scalar constraint).
Local Abbreviation world := (Eff.world scalar).

Implicit Types (self : instance) (w : world) (d : gmap string pyobj).
Implicit Types (ts : gmap string Transform).

Lemma with_cache_one (t : Transform) :
  Torch.with_cache t 1 = inr (cache_enabled t).
Proof. unfold Torch.with_cache, cache_enabled. by case_bool_decide. Qed.

Lemma base_init_other (n : Z) :
  n ≠ 0%Z → n ≠ 1%Z →
  @Torch.__init__ n = inl (Py.ValueError "cache_size must be 0 or 1").
Proof. intros H0 H1. unfold Torch.__init__. by rewrite !bool_decide_eq_false_2. Qed.

Lemma isinstance_all_transforms ts :
  forallb Torch.isinstance_Transform (JointTransform.values (Torch.PyTransform <$> ts))
  = true.
Proof.
  apply forallb_values. intros k o. rewrite lookup_fmap.
  destruct (ts !! k); simpl; [|done]. by intros [= <-].
Qed.

Lemma checked_all_transforms ts :
  omap Torch.as_Transform (Torch.PyTransform <$> ts) = ts.
Proof.
  apply map_eq. intros k. rewrite lookup_omap, lookup_fmap.
  by destruct (ts !! k).
Qed.

(** Construction with [cache_size = 0]. *)
Lemma init_zero d w :
  forallb Torch.isinstance_Transform (JointTransform.values d) = true →
  JointTransform.__init__ d 0 w
  = (inr (JointTransform.Build (omap Torch.as_Transform d) 0), w).
Proof.
  intros Hall. unfold JointTransform.__init__, Eff.bind at 1.
  by rewrite all_ret_run, Hall.
Qed.

(** Construction with [cache_size = 1]. *)
Lemma init_one d w :
  forallb Torch.isinstance_Transform (JointTransform.values d) = true →
  JointTransform.__init__ d 1 w
  = (inr (JointTransform.Build (cache_enabled <$> omap Torch.as_Transform d) 1), w).
Proof.
  intros Hall. unfold JointTransform.__init__, Eff.bind at 1.
  rewrite all_ret_run, Hall. simpl.
  unfold Eff.bind at 1.
  rewrite (dict_comp_run _ (λ kv, (kv.1, cache_enabled kv.2)) (λ _, [])).
  - rewrite mjoin_nils, app_nil_r, world_eta.
    rewrite foldl_insert_list_to_map.
    + rewrite (right_id_L (∅ : gmap string Transform) (∪)).
      unfold Eff.bind, Eff.ret. simpl. do 3 f_equal. apply map_eq. intros k.
      by rewrite (lookup_items_map (λ _, cache_enabled)), lookup_fmap.
    + rewrite <- list_fmap_compose. apply NoDup_fst_map_to_list.
  - intros [key t] h lg _ _. simpl. rewrite with_cache_one. simpl.
    unfold Eff.bind, Eff.ret. simpl. by rewrite app_nil_r.
Qed.

Lemma with_cache_other (t : Transform) (n : Z) :
  n ≠ 0%Z → n ≠ 1%Z →
  Torch.with_cache t n
  = if bool_decide (Torch._cache_size t = n) then inr t
    else inl (Py.ValueError "cache_size must be 0 or 1").
Proof. intros H0 H1. unfold Torch.with_cache. by rewrite base_init_other. Qed.

Lemma with_cache_comp_other (n : Z) (l : list (string * Transform)) acc w :
  n ≠ 0%Z → n ≠ 1%Z →
  let c := dict_comp (λ '(key, t),
                        do t' <- Eff.lift (Torch.with_cache t n) ;;
                        Eff.ret (key, t')) l acc w in
  (∃ r, c = (inr r, w)) ∨ c = (inl (Py.ValueError "cache_size must be 0 or 1"), w).
Proof.
  intros H0 H1. revert acc. induction l as [|[key t] l IH]; intros acc; simpl.
  - left. by eexists.
  - unfold Eff.bind at 1 2. rewrite with_cache_other by done.
    case_bool_decide; simpl; [apply IH | by right].
Qed.

(** Construction with any other cache size. *)
Lemma init_other d (n : Z) w :
  forallb Torch.isinstance_Transform (JointTransform.values d) = true →
  n ≠ 0%Z → n ≠ 1%Z →
  JointTransform.__init__ d n w
  = (inl (Py.ValueError "cache_size must be 0 or 1"), w).
Proof.
  intros Hall H0 H1. unfold JointTransform.__init__, Eff.bind at 1.
  rewrite all_ret_run, Hall. simpl.
  rewrite bool_decide_eq_true_2 by done.
  unfold Eff.bind at 1.
  destruct (with_cache_comp_other n (map_to_list (omap Torch.as_Transform d)) ∅ w H0 H1)
    as [[r ->] | ->]; [|done].
  unfold Eff.bind. by rewrite base_init_other.
Qed.

(** Construction when the assertion fails. *)
Lemma init_assert d (n : Z) w :
  forallb Torch.isinstance_Transform (JointTransform.values d) = false →
  JointTransform.__init__ d n w
  = (inl (Py.AssertionError
            (JointTransform.assert_message
               (Torch.type_of <$> JointTransform.values d))), w).
Proof.
  intros Hall. unfold JointTransform.__init__, Eff.bind at 1.
  by rewrite all_ret_run, Hall.
Qed.

Lemma bijective_run self w :
  JointTransform.bijective self w
  = (inr (forallb Torch.bijective
            (JointTransform.values (JointTransform.transformations self))), w).
Proof. apply all_ret_run. Qed.

Lemma domain_run self w :
  JointTransform.domain self w
  = (inr (Torch.domain <$> JointTransform.transformations self), w).
Proof.
  unfold JointTransform.domain.
  rewrite (dict_comp_pure (λ _ t, Torch.domain t)). do 2 f_equal.
  apply map_eq. intros k. rewrite map_lookup_imap, lookup_fmap.
  by destruct (_ !! k).
Qed.

Lemma codomain_run self w :
  JointTransform.codomain self w
  = (inr (Torch.codomain <$> JointTransform.transformations self), w).
Proof.
  unfold JointTransform.codomain.
  rewrite (dict_comp_pure (λ _ t, Torch.codomain t)). do 2 f_equal.
  apply map_eq. intros k. rewrite map_lookup_imap, lookup_fmap.
  by destruct (_ !! k).
Qed.
End InitLemmas.

(** * The class run on the example store *)

Section Evaluation.

(** [_call] with the registry [{"a": Shift}] on [{"a": [0], "b": [5]}]
    returns a new container [{"a": [1], "b": [5]}] and calls [Shift] once. *)
Example call_on_x1 :
  JointTransform._call Example.self_a 1%positive Example.w0
  = (inr 3%positive,
     Eff.World {[ 1%positive := Example.x1; 2%positive := Example.x2;
                  3%positive := {[ "a" := Example.vec [1%Z];
                                   "b" := Example.vec [5%Z] ]} ]}
               [Eff.EvCall "a" (Example.vec [0%Z])]).
Proof. vm_compute. reflexivity. Qed.

(** The Jacobian terms of the same container: the term of [Shift] under
    ["a"], ones under ["b"]. *)
Example log_abs_det_jacobian_on_x1 :
  JointTransform.log_abs_det_jacobian 1%Z Example.self_a 1%positive 1%positive
    Example.w0
  = (inr 3%positive,
     Eff.World {[ 1%positive := Example.x1; 2%positive := Example.x2;
                  3%positive := {[ "a" := Example.vec [0%Z];
                                   "b" := Example.vec [1%Z] ]} ]}
               [Eff.EvLogAbsDetJacobian "a" (Example.vec [0%Z]) (Example.vec [0%Z])]).
Proof. vm_compute. reflexivity. Qed.

(** A container without the key ["a"] is refused. *)
Example call_on_x2 :
  JointTransform._call Example.self_a 2%positive Example.w0
  = (inl (Py.ValueError "All keys in transformations must be in x."), Example.w0).
Proof. vm_compute. reflexivity. Qed.

(** A string is not a transform. *)
Example init_on_str :
  JointTransform.__init__
    ({[ "a" := Torch.PyOther "<class 'str'>" ]} : gmap string (Torch.pyobj Z string))
    0 Example.w0
  = (inl (Py.AssertionError
            "All transformations must be of type torch.distributions.Transform, but are [<class 'str'>]."),
     Example.w0).
Proof. vm_compute. reflexivity. Qed.
End Evaluation.

(** * The specification's statements *)

Section Statements.
Context {scalar constraint : Type}.
Local Abbreviation Tensor := (Torch.Tensor scalar).
Local Abbreviation Transform := (Torch.Transform scalar constraint).
Local Abbreviation pyobj := (Torch.pyobj scalar constraint).
Local Abbreviation instance := (JointTransform.instance scalar constraint).
Local Abbreviation world := (Eff.world scalar).

Implicit Types (self : instance) (w : world) (x y : Py.loc).
Implicit Types (xd yd : gmap string Tensor).

Lemma fields_valid w x xd :
  Eff.heap w !! x = Some xd → TensorDict.fields w x = xd.
Proof. intros Hx. by apply lookup_total_correct. Qed.

Lemma fresh_not_valid w x xd :
  Eff.heap w !! x = Some xd → x ≠ fresh (dom (Eff.heap w)).
Proof.
  intros Hx ->. apply (is_fresh (dom (Eff.heap w))), elem_of_dom. eauto.
Qed.

(** Objects of the store are left as they were by [_call]. *)
Lemma _call_frame self x w l (v : gmap string Tensor) :
  Eff.heap w !! l = Some v →
  Eff.heap (JointTransform._call self x w).2 !! l = Some v.
Proof.
  intros Hl.
  destruct (decide (dom (JointTransform.transformations self)
                      ⊆ dom (TensorDict.fields w x))) as [Hsub|Hsub].
  - rewrite _call_run by done. simpl.
    rewrite lookup_insert_ne; [done|]. symmetry. by eapply fresh_not_valid.
  - by rewrite _call_fail.
Qed.

Lemma _inverse_frame self y w l (v : gmap string Tensor) :
  Eff.heap w !! l = Some v →
  Eff.heap (JointTransform._inverse self y w).2 !! l = Some v.
Proof.
  intros Hl.
  destruct (decide (dom (JointTransform.transformations self)
                      ⊆ dom (TensorDict.fields w y))) as [Hsub|Hsub].
  - rewrite _inverse_run by done. simpl.
    rewrite lookup_insert_ne; [done|]. symmetry. by eapply fresh_not_valid.
  - by rewrite _inverse_fail.
Qed.

Lemma log_abs_det_jacobian_frame one self x y w l (v : gmap string Tensor) :
  Eff.heap w !! l = Some v →
  Eff.heap (JointTransform.log_abs_det_jacobian one self x y w).2 !! l = Some v.
Proof.
  intros Hl.
  destruct (decide (dom (TensorDict.fields w x) = dom (TensorDict.fields w y)))
    as [Heq|Hne].
  - destruct (decide (dom (JointTransform.transformations self)
                        ⊆ dom (TensorDict.fields w x))) as [Hsub|Hsub].
    + rewrite log_abs_det_jacobian_run by done. simpl.
      rewrite lookup_insert_ne; [done|]. symmetry. by eapply fresh_not_valid.
    + by rewrite log_abs_det_jacobian_fail_cover.
  - by rewrite log_abs_det_jacobian_fail_keys.
Qed.

(** C2: when the keys of the container cover the registry, [_call] returns
    a container with the same keys in which every registered key holds the
    forward image of the input field and every other key holds the input
    value; [_inverse] does the same with the inverse images. *)
Theorem call_inverse_fields self x xd w :
  Eff.heap w !! x = Some xd →
  dom (JointTransform.transformations self) ⊆ dom xd →
  (∃ r rd w', JointTransform._call self x w = (inr r, w')
     ∧ Eff.heap w' !! r = Some rd
     ∧ dom rd = dom xd
     ∧ (∀ k t, JointTransform.transformations self !! k = Some t →
               rd !! k = Torch.call t <$> xd !! k)
     ∧ (∀ k, JointTransform.transformations self !! k = None →
             rd !! k = xd !! k))
  ∧ (∃ r rd w', JointTransform._inverse self x w = (inr r, w')
     ∧ Eff.heap w' !! r = Some rd
     ∧ dom rd = dom xd
     ∧ (∀ k t, JointTransform.transformations self !! k = Some t →
               rd !! k = Torch.inv t <$> xd !! k)
     ∧ (∀ k, JointTransform.transformations self !! k = None →
             rd !! k = xd !! k)).
Proof.
  intros Hx Hsub. pose proof (fields_valid _ _ _ Hx) as Hf.
  split.
  - eexists _, _, _. split; [apply _call_run; by rewrite Hf|]. simpl.
    rewrite lookup_insert_eq, Hf. split; [done|].
    split; [by apply dom_mapped|].
    split; intros k; [intros t|]; intros Hk; rewrite lookup_mapped by done;
      by rewrite Hk.
  - eexists _, _, _. split; [apply _inverse_run; by rewrite Hf|]. simpl.
    rewrite lookup_insert_eq, Hf. split; [done|].
    split; [by apply dom_mapped|].
    split; intros k; [intros t|]; intros Hk; rewrite lookup_mapped by done;
      by rewrite Hk.
Qed.

(** C1: when the keys of the container cover the registry and every
    registered transform and its inverse undo each other, applying
    [_inverse] to the result of [_call] gives a container that agrees with
    the input on every registered key and on every other key. *)
Theorem inverse_call_roundtrip self x xd w :
  Eff.heap w !! x = Some xd →
  dom (JointTransform.transformations self) ⊆ dom xd →
  (∀ k t, JointTransform.transformations self !! k = Some t →
          (∀ v, Torch.inv t (Torch.call t v) = v)
          ∧ (∀ v, Torch.call t (Torch.inv t v) = v)) →
  ∃ r w1 r' w2 xd',
    JointTransform._call self x w = (inr r, w1)
    ∧ JointTransform._inverse self r w1 = (inr r', w2)
    ∧ Eff.heap w2 !! r' = Some xd'
    ∧ (∀ k t, JointTransform.transformations self !! k = Some t →
              xd' !! k = xd !! k)
    ∧ (∀ k, JointTransform.transformations self !! k = None →
            xd' !! k = xd !! k).
Proof.
  intros Hx Hsub Hinv. pose proof (fields_valid _ _ _ Hx) as Hf.
  assert (Hsub' : dom (JointTransform.transformations self)
                  ⊆ dom (mapped Torch.call (JointTransform.transformations self) xd))
    by (by rewrite dom_mapped).
  eexists _, _, _, _, _.
  split; [apply _call_run; by rewrite Hf|].
  split; [apply _inverse_run; by rewrite fields_insert_eq, Hf|].
  simpl. rewrite lookup_insert_eq, fields_insert_eq, Hf. split; [done|].
  split; intros k; [intros t|]; intros Hk;
    rewrite !lookup_mapped by done; rewrite Hk; [|done].
  destruct (xd !! k) as [v|]; simpl; [|done].
  f_equal. by apply (Hinv k t).
Qed.

Lemma ones_like_filled one (t : Tensor) :
  Torch.shape (Torch.ones_like one t) = Torch.shape t
  ∧ length (Torch.data (Torch.ones_like one t)) = length (Torch.data t)
  ∧ Forall (λ s, s = one) (Torch.data (Torch.ones_like one t)).
Proof.
  unfold Torch.ones_like; simpl. rewrite length_replicate.
  split; [done|]. split; [done|]. apply Forall_replicate. done.
Qed.

(** C3: when [x] and [y] have the same keys and these cover the registry,
    [log_abs_det_jacobian] returns a container with the keys of [x] that
    holds, under a registered key, the Jacobian term of that key's
    transform at the two fields and, under any other key, a tensor shaped
    like the field of [x] and filled with ones. *)
Theorem log_abs_det_jacobian_fields one self x y xd yd w :
  Eff.heap w !! x = Some xd →
  Eff.heap w !! y = Some yd →
  dom xd = dom yd →
  dom (JointTransform.transformations self) ⊆ dom xd →
  ∃ r jd w',
    JointTransform.log_abs_det_jacobian one self x y w = (inr r, w')
    ∧ Eff.heap w' !! r = Some jd
    ∧ dom jd = dom xd
    ∧ (∀ k t xv yv,
         JointTransform.transformations self !! k = Some t →
         xd !! k = Some xv → yd !! k = Some yv →
         jd !! k = Some (Torch.log_abs_det_jacobian t xv yv))
    ∧ (∀ k xv,
         JointTransform.transformations self !! k = None →
         xd !! k = Some xv →
         ∃ v, jd !! k = Some v
              ∧ v = Torch.ones_like one xv
              ∧ Torch.shape v = Torch.shape xv
              ∧ length (Torch.data v) = length (Torch.data xv)
              ∧ Forall (λ s, s = one) (Torch.data v)).
Proof.
  intros Hx Hy Heq Hsub.
  pose proof (fields_valid _ _ _ Hx) as Hfx.
  pose proof (fields_valid _ _ _ Hy) as Hfy.
  eexists _, _, _.
  split; [apply log_abs_det_jacobian_run; by rewrite Hfx, ?Hfy|].
  simpl. rewrite lookup_insert_eq, Hfx, Hfy. split; [done|].
  split; [apply dom_jacobian_fields|split].
  - intros k t xv yv Hk Hxv Hyv. rewrite lookup_jacobian_fields.
    rewrite decide_True by (apply elem_of_dom; eauto).
    unfold jacobian_term. rewrite Hk.
    by rewrite (lookup_total_correct _ _ _ Hxv), (lookup_total_correct _ _ _ Hyv).
  - intros k xv Hk Hxv. eexists. split; [|split; [done|apply ones_like_filled]].
    rewrite lookup_jacobian_fields.
    rewrite decide_True by (apply elem_of_dom; eauto).
    unfold jacobian_term. rewrite Hk.
    by rewrite (lookup_total_correct _ _ _ Hxv).
Qed.

(** C4, as the code has it: when a registered key is missing from the
    container, [_call] and [_inverse] raise a [ValueError] with a fixed
    text, the store gains no container and no call on a component
    transform is logged. *)
Theorem call_inverse_key_mismatch self x xd w :
  Eff.heap w !! x = Some xd →
  ¬ dom (JointTransform.transformations self) ⊆ dom xd →
  JointTransform._call self x w
    = (inl (Py.ValueError "All keys in transformations must be in x."), w)
  ∧ JointTransform._inverse self x w
    = (inl (Py.ValueError "All keys in transformations must be in y."), w).
Proof.
  intros Hx Hsub. pose proof (fields_valid _ _ _ Hx) as Hf.
  split; [apply _call_fail | apply _inverse_fail]; by rewrite Hf.
Qed.

(** C5: [log_abs_det_jacobian] raises a [ValueError] when [x] and [y]
    have different keys, raises a [ValueError] when the keys agree and do
    not cover the registry, and the two exceptions differ. *)
Theorem log_abs_det_jacobian_key_checks one self x y xd yd w :
  Eff.heap w !! x = Some xd →
  Eff.heap w !! y = Some yd →
  (dom xd ≠ dom yd →
     JointTransform.log_abs_det_jacobian one self x y w
     = (inl (Py.ValueError "x and y must have the same keys."), w))
  ∧ (dom xd = dom yd →
     ¬ dom (JointTransform.transformations self) ⊆ dom xd →
     JointTransform.log_abs_det_jacobian one self x y w
     = (inl (Py.ValueError "All keys in transformations must be in x and y."), w))
  ∧ Py.ValueError "x and y must have the same keys."
    ≠ Py.ValueError "All keys in transformations must be in x and y.".
Proof.
  intros Hx Hy.
  pose proof (fields_valid _ _ _ Hx) as Hfx.
  pose proof (fields_valid _ _ _ Hy) as Hfy.
  split; [|split].
  - intros Hne. apply log_abs_det_jacobian_fail_keys. by rewrite Hfx, Hfy.
  - intros Heq Hsub. apply log_abs_det_jacobian_fail_cover; by rewrite Hfx, ?Hfy.
  - discriminate.
Qed.

(** C6: when some value of [transformations] is not a [Transform],
    construction raises an [AssertionError] whose text lists the types of
    the values, the offending type among them; no instance is returned,
    so nothing can be called, and the store and the log stay as they
    were. *)
Theorem init_rejects_non_transform (d : gmap string pyobj) (cache_size : Z) w k ty :
  d !! k = Some (Torch.PyOther ty) →
  ∃ msg,
    JointTransform.__init__ d cache_size w = (inl (Py.AssertionError msg), w)
    ∧ msg = JointTransform.assert_message (Torch.type_of <$> JointTransform.values d)
    ∧ ty ∈ Torch.type_of <$> JointTransform.values d
    ∧ Py.mentions msg ty = true.
Proof.
  intros Hk.
  assert (Hin : ty ∈ Torch.type_of <$> JointTransform.values d).
  { apply list_elem_of_fmap. exists (Torch.PyOther ty). split; [done|].
    apply list_elem_of_fmap. exists (k, Torch.PyOther ty). split; [done|].
    by apply elem_of_map_to_list. }
  eexists. split; [|split; [done|split; [done|by apply assert_message_mentions]]].
  apply init_assert.
  destruct (forallb _ _) eqn:Hall; [|done].
  apply forallb_values in Hall. by specialize (Hall k _ Hk).
Qed.

(** C7: with [cache_size = 1] every stored entry is what [with_cache(1)]
    returns for the supplied transform, and it has cache size one; with
    [cache_size = 0] the supplied transforms are stored as they are; with
    any other cache size construction raises a [ValueError]. *)
Theorem init_cache_size (ts : gmap string Transform) w :
  (∃ self,
     JointTransform.__init__ (Torch.PyTransform <$> ts) 1 w = (inr self, w)
     ∧ dom (JointTransform.transformations self) = dom ts
     ∧ ∀ k t, ts !! k = Some t →
         ∃ t', Torch.with_cache t 1 = inr t'
               ∧ JointTransform.transformations self !! k = Some t'
               ∧ Torch._cache_size t' = 1%Z)
  ∧ JointTransform.__init__ (Torch.PyTransform <$> ts) 0 w
    = (inr (JointTransform.Build ts 0), w)
  ∧ (∀ n : Z, n ≠ 0%Z → n ≠ 1%Z →
       JointTransform.__init__ (Torch.PyTransform <$> ts) n w
       = (inl (Py.ValueError "cache_size must be 0 or 1"), w)).
Proof.
  pose proof (isinstance_all_transforms ts) as Hall.
  split; [|split].
  - eexists. split; [by apply init_one|]. simpl.
    rewrite checked_all_transforms. split; [by rewrite dom_fmap_L|].
    intros k t Hk. exists (cache_enabled t).
    split; [apply with_cache_one|].
    split; [by rewrite lookup_fmap, Hk|].
    unfold cache_enabled. by case_bool_decide.
  - rewrite init_zero by done. by rewrite checked_all_transforms.
  - intros n H0 H1. by apply init_other.
Qed.

(** C8: the property [bijective] returns true exactly when every
    registered transform is bijective, hence false as soon as one is not,
    and evaluating it changes neither the store nor the log. *)
Theorem bijective_iff_all self w :
  ∃ b, JointTransform.bijective self w = (inr b, w)
       ∧ (b = true ↔ ∀ k t, JointTransform.transformations self !! k = Some t →
                            Torch.bijective t = true)
       ∧ ((∃ k t, JointTransform.transformations self !! k = Some t
                  ∧ Torch.bijective t = false) → b = false).
Proof.
  eexists. split; [apply bijective_run|].
  split; [apply forallb_values|].
  intros (k & t & Hk & Hb).
  destruct (forallb _ _) eqn:Hall; [|done].
  apply forallb_values in Hall. specialize (Hall k t Hk). simpl in Hall. congruence.
Qed.

(** C9: [_call], [_inverse] and [log_abs_det_jacobian] leave their input
    containers as they were, whether they return or raise, and the
    container they return is a new object. *)
Theorem inputs_unchanged one self x y xd yd w :
  Eff.heap w !! x = Some xd →
  Eff.heap w !! y = Some yd →
  (Eff.heap (JointTransform._call self x w).2 !! x = Some xd
   ∧ ∀ r, (JointTransform._call self x w).1 = inr r → Eff.heap w !! r = None)
  ∧ (Eff.heap (JointTransform._inverse self y w).2 !! y = Some yd
     ∧ ∀ r, (JointTransform._inverse self y w).1 = inr r → Eff.heap w !! r = None)
  ∧ (Eff.heap (JointTransform.log_abs_det_jacobian one self x y w).2 !! x = Some xd
     ∧ Eff.heap (JointTransform.log_abs_det_jacobian one self x y w).2 !! y = Some yd
     ∧ ∀ r, (JointTransform.log_abs_det_jacobian one self x y w).1 = inr r →
            Eff.heap w !! r = None).
Proof.
  intros Hx Hy.
  assert (Hnew : Eff.heap w !! fresh (dom (Eff.heap w)) = None)
    by apply not_elem_of_dom, is_fresh.
  split; [|split].
  - split; [by apply _call_frame|]. intros r.
    destruct (decide (dom (JointTransform.transformations self)
                        ⊆ dom (TensorDict.fields w x))) as [Hsub|Hsub].
    + rewrite _call_run by done. simpl. by intros [= <-].
    + by rewrite _call_fail.
  - split; [by apply _inverse_frame|]. intros r.
    destruct (decide (dom (JointTransform.transformations self)
                        ⊆ dom (TensorDict.fields w y))) as [Hsub|Hsub].
    + rewrite _inverse_run by done. simpl. by intros [= <-].
    + by rewrite _inverse_fail.
  - split; [by apply log_abs_det_jacobian_frame|].
    split; [by apply log_abs_det_jacobian_frame|]. intros r.
    destruct (decide (dom (TensorDict.fields w x) = dom (TensorDict.fields w y)))
      as [Heq|Hne].
    + destruct (decide (dom (JointTransform.transformations self)
                          ⊆ dom (TensorDict.fields w x))) as [Hsub|Hsub].
      * rewrite log_abs_det_jacobian_run by done. simpl. by intros [= <-].
      * by rewrite log_abs_det_jacobian_fail_cover.
    + by rewrite log_abs_det_jacobian_fail_keys.
Qed.

Lemma mapped_empty (m : Transform → Tensor → Tensor) xd : mapped m ∅ xd = xd.
Proof.
  apply map_eq. intros k. rewrite lookup_mapped by set_solver.
  by rewrite lookup_empty.
Qed.

Lemma init_empty (cache_size : Z) w :
  cache_size = 0%Z ∨ cache_size = 1%Z →
  ∃ self, JointTransform.__init__ (∅ : gmap string pyobj) cache_size w = (inr self, w)
          ∧ JointTransform.transformations self = ∅.
Proof.
  assert (Hall : forallb Torch.isinstance_Transform
                   (JointTransform.values (∅ : gmap string pyobj)) = true).
  { unfold JointTransform.values. by rewrite map_to_list_empty. }
  intros [-> | ->]; eexists; split.
  - by apply init_zero.
  - simpl. apply omap_empty.
  - by apply init_one.
  - simpl. by rewrite omap_empty, fmap_empty.
Qed.

(** C10: an instance constructed from an empty dictionary, with cache
    size 0 or 1, accepts every container: [_call] and [_inverse] return a
    container equal to the input, [bijective] is true, [domain] and
    [codomain] are empty, and [log_abs_det_jacobian] on two containers
    with the same keys returns, under every key, ones shaped like the
    field of [x]. *)
Theorem empty_registry one (cache_size : Z) x y xd yd w :
  cache_size = 0%Z ∨ cache_size = 1%Z →
  Eff.heap w !! x = Some xd →
  Eff.heap w !! y = Some yd →
  dom xd = dom yd →
  ∃ self,
    JointTransform.__init__ (∅ : gmap string pyobj) cache_size w = (inr self, w)
    ∧ (∃ r w', JointTransform._call self x w = (inr r, w')
               ∧ Eff.heap w' !! r = Some xd)
    ∧ (∃ r w', JointTransform._inverse self x w = (inr r, w')
               ∧ Eff.heap w' !! r = Some xd)
    ∧ JointTransform.bijective self w = (inr true, w)
    ∧ JointTransform.domain self w = (inr ∅, w)
    ∧ JointTransform.codomain self w = (inr ∅, w)
    ∧ (∃ r jd w',
         JointTransform.log_abs_det_jacobian one self x y w = (inr r, w')
         ∧ Eff.heap w' !! r = Some jd
         ∧ dom jd = dom xd
         ∧ ∀ k xv, xd !! k = Some xv →
                   jd !! k = Some (Torch.ones_like one xv)).
Proof.
  intros Hcs Hx Hy Heq.
  pose proof (fields_valid _ _ _ Hx) as Hfx.
  pose proof (fields_valid _ _ _ Hy) as Hfy.
  destruct (init_empty cache_size w Hcs) as (self & Hinit & Hreg).
  assert (Hsub : dom (JointTransform.transformations self)
                 ⊆ dom (TensorDict.fields w x)) by (rewrite Hreg; set_solver).
  exists self. split; [done|].
  split; [|split; [|split; [|split; [|split]]]].
  - eexists _, _. split; [by apply _call_run|]. simpl.
    by rewrite lookup_insert_eq, Hreg, mapped_empty, Hfx.
  - eexists _, _. split; [by apply _inverse_run|]. simpl.
    by rewrite lookup_insert_eq, Hreg, mapped_empty, Hfx.
  - rewrite bijective_run, Hreg. unfold JointTransform.values.
    by rewrite map_to_list_empty.
  - by rewrite domain_run, Hreg, fmap_empty.
  - by rewrite codomain_run, Hreg, fmap_empty.
  - eexists _, _, _.
    split; [apply log_abs_det_jacobian_run; [by rewrite Hfx, Hfy|done]|].
    simpl. rewrite lookup_insert_eq, Hfx, Hfy, Hreg. split; [done|].
    split; [apply dom_jacobian_fields|].
    intros k xv Hxv. rewrite lookup_jacobian_fields.
    rewrite decide_True by (apply elem_of_dom; eauto).
    unfold jacobian_term. rewrite lookup_empty.
    by rewrite (lookup_total_correct _ _ _ Hxv).
Qed.
End Statements.

(** * The statements at concrete inputs *)

Section Instances.

Lemma Shift_inverse (v : Torch.Tensor Z) :
  Torch.inv Example.Shift (Torch.call Example.Shift v) = v
  ∧ Torch.call Example.Shift (Torch.inv Example.Shift v) = v.
Proof.
  destruct v as [sh l]. unfold Example.Shift, Example.pointwise; simpl.
  split; f_equal; rewrite <- list_fmap_compose;
    rewrite <- (list_fmap_id l) at 2; apply list_fmap_ext; intros; simpl; lia.
Qed.

Lemma covered_a_x1 :
  dom (JointTransform.transformations Example.self_a) ⊆ dom Example.x1.
Proof. apply (bool_decide_unpack _). vm_compute. exact I. Defined.

Lemma not_covered_a_x2 :
  ¬ dom (JointTransform.transformations Example.self_a) ⊆ dom Example.x2.
Proof. intros H. apply (bool_decide_pack _) in H. vm_compute in H. exact H. Defined.

Lemma inverse_call_roundtrip_witness :
  ∃ r w1 r' w2 xd',
    JointTransform._call Example.self_a 1%positive Example.w0 = (inr r, w1)
    ∧ JointTransform._inverse Example.self_a r w1 = (inr r', w2)
    ∧ Eff.heap w2 !! r' = Some xd'
    ∧ (∀ k t, JointTransform.transformations Example.self_a !! k = Some t →
              xd' !! k = Example.x1 !! k)
    ∧ (∀ k, JointTransform.transformations Example.self_a !! k = None →
            xd' !! k = Example.x1 !! k).
Proof.
  apply (inverse_call_roundtrip Example.self_a 1%positive Example.x1 Example.w0).
  - reflexivity.
  - exact covered_a_x1.
  - intros k t Hk. simpl in Hk. apply lookup_singleton_Some in Hk as [_ <-].
    split; intros v; apply Shift_inverse.
Defined.

Lemma call_inverse_fields_witness :
  ∃ r rd w',
    JointTransform._call Example.self_a 1%positive Example.w0 = (inr r, w')
    ∧ Eff.heap w' !! r = Some rd
    ∧ rd !! "a" = Some (Example.vec [1%Z])
    ∧ rd !! "b" = Some (Example.vec [5%Z]).
Proof.
  destruct (call_inverse_fields Example.self_a 1%positive Example.x1 Example.w0
              eq_refl covered_a_x1)
    as [(r & rd & w' & Hrun & Hrd & _ & Hreg & Hother) _].
  exists r, rd, w'. split; [exact Hrun|]. split; [exact Hrd|]. split.
  - rewrite (Hreg "a" Example.Shift); reflexivity.
  - rewrite (Hother "b"); reflexivity.
Defined.

Lemma log_abs_det_jacobian_fields_witness :
  ∃ r jd w',
    JointTransform.log_abs_det_jacobian 1%Z Example.self_a 1%positive 1%positive
      Example.w0 = (inr r, w')
    ∧ Eff.heap w' !! r = Some jd
    ∧ jd !! "a" = Some (Example.vec [0%Z])
    ∧ jd !! "b" = Some (Example.vec [1%Z]).
Proof.
  destruct (log_abs_det_jacobian_fields 1%Z Example.self_a 1%positive 1%positive
              Example.x1 Example.x1 Example.w0 eq_refl eq_refl eq_refl covered_a_x1)
    as (r & jd & w' & Hrun & Hjd & _ & Hreg & Hother).
  exists r, jd, w'. split; [exact Hrun|]. split; [exact Hjd|]. split.
  - apply (Hreg "a" Example.Shift (Example.vec [0%Z]) (Example.vec [0%Z]));
      reflexivity.
  - destruct (Hother "b" (Example.vec [5%Z]) eq_refl eq_refl) as (v & Hv & -> & _).
    exact Hv.
Defined.

Lemma call_inverse_key_mismatch_witness :
  JointTransform._call Example.self_a 2%positive Example.w0
    = (inl (Py.ValueError "All keys in transformations must be in x."), Example.w0)
  ∧ JointTransform._inverse Example.self_a 2%positive Example.w0
    = (inl (Py.ValueError "All keys in transformations must be in y."), Example.w0).
Proof.
  apply (call_inverse_key_mismatch Example.self_a 2%positive Example.x2 Example.w0).
  - reflexivity.
  - exact not_covered_a_x2.
Defined.

(** C4 as the specification words it fails: with the registry
    [{"height": Shift}] and the container [{"b": [5]}] the text of the
    exception does not contain the missing key ["height"]. *)
Lemma call_error_names_no_key :
  ¬ (∀ (self : JointTransform.instance Z string) x xd (w : Eff.world Z),
       Eff.heap w !! x = Some xd →
       ¬ dom (JointTransform.transformations self) ⊆ dom xd →
       ∃ e, (JointTransform._call self x w).1 = inl e
            ∧ ∀ k, k ∈ dom (JointTransform.transformations self) ∖ dom xd →
                   Py.mentions (Py.message e) k = true).
Proof.
  intros H.
  destruct (H Example.self_height 2%positive Example.x2 Example.w0)
    as (e & He & Hk).
  - reflexivity.
  - intros Hsub. apply (bool_decide_pack _) in Hsub. vm_compute in Hsub. exact Hsub.
  - vm_compute in He. injection He as <-.
    specialize (Hk "height").
    assert (Hin : "height" ∈ dom (JointTransform.transformations Example.self_height)
                             ∖ dom Example.x2)
      by (apply (bool_decide_unpack _); vm_compute; exact I).
    specialize (Hk Hin). vm_compute in Hk. discriminate.
Qed.

Lemma log_abs_det_jacobian_key_checks_witness :
  JointTransform.log_abs_det_jacobian 1%Z Example.self_a 1%positive 2%positive
    Example.w0
  = (inl (Py.ValueError "x and y must have the same keys."), Example.w0)
  ∧ JointTransform.log_abs_det_jacobian 1%Z Example.self_a 2%positive 2%positive
      Example.w0
    = (inl (Py.ValueError "All keys in transformations must be in x and y."),
       Example.w0).
Proof.
  split.
  - apply (log_abs_det_jacobian_key_checks 1%Z Example.self_a 1%positive 2%positive
             Example.x1 Example.x2 Example.w0 eq_refl eq_refl).
    intros Heq. apply (f_equal (λ s : gset string, bool_decide ("a" ∈ s))) in Heq.
    vm_compute in Heq. discriminate Heq.
  - apply (log_abs_det_jacobian_key_checks 1%Z Example.self_a 2%positive 2%positive
             Example.x2 Example.x2 Example.w0 eq_refl eq_refl).
    + reflexivity.
    + exact not_covered_a_x2.
Defined.

Lemma init_rejects_non_transform_witness :
  ∃ msg,
    JointTransform.__init__
      ({[ "a" := Torch.PyOther "<class 'str'>" ]} : gmap string (Torch.pyobj Z string))
      0 Example.w0
    = (inl (Py.AssertionError msg), Example.w0)
    ∧ Py.mentions msg "<class 'str'>" = true.
Proof.
  destruct (init_rejects_non_transform
              ({[ "a" := Torch.PyOther "<class 'str'>" ]}
                 : gmap string (Torch.pyobj Z string))
              0 Example.w0 "a" "<class 'str'>" (lookup_singleton_eq _ _))
    as (msg & Hrun & _ & _ & Hm).
  exists msg. split; [exact Hrun | exact Hm].
Defined.

Lemma init_cache_size_witness :
  JointTransform.__init__
    (Torch.PyTransform <$> ({[ "a" := Example.Shift ]} : gmap string _))
    2 Example.w0
  = (inl (Py.ValueError "cache_size must be 0 or 1"), Example.w0).
Proof.
  apply (init_cache_size {[ "a" := Example.Shift ]} Example.w0); lia.
Defined.

Lemma bijective_iff_all_witness :
  ∃ b, JointTransform.bijective Example.self_abs Example.w0 = (inr b, Example.w0)
       ∧ b = false.
Proof.
  destruct (bijective_iff_all Example.self_abs Example.w0) as (b & Hrun & _ & Hb).
  exists b. split; [exact Hrun|]. apply Hb.
  exists "b", Example.Abs. split; reflexivity.
Defined.

Lemma inputs_unchanged_witness :
  Eff.heap (JointTransform._call Example.self_a 1%positive Example.w0).2 !! 1%positive
  = Some Example.x1
  ∧ Eff.heap (JointTransform._inverse Example.self_a 2%positive Example.w0).2
      !! 2%positive
    = Some Example.x2.
Proof.
  destruct (inputs_unchanged 1%Z Example.self_a 1%positive 2%positive
              Example.x1 Example.x2 Example.w0 eq_refl eq_refl)
    as ((Hc & _) & (Hi & _) & _).
  split; [exact Hc | exact Hi].
Defined.

Lemma empty_registry_witness :
  ∃ self,
    JointTransform.__init__ (∅ : gmap string (Torch.pyobj Z string)) 0 Example.w0
    = (inr self, Example.w0)
    ∧ (∃ r w', JointTransform._call self 1%positive Example.w0 = (inr r, w')
               ∧ Eff.heap w' !! r = Some Example.x1)
    ∧ JointTransform.bijective self Example.w0 = (inr true, Example.w0).
Proof.
  destruct (empty_registry (constraint := string) 1%Z 0 1%positive 1%positive Example.x1 Example.x1
              Example.w0 (or_introl eq_refl) eq_refl eq_refl eq_refl)
    as (self & Hinit & Hcall & _ & Hbij & _).
  exists self. split; [exact Hinit|]. split; [exact Hcall | exact Hbij].
Defined.
End Instances.

(** * Further properties of the class *)

Section FurtherLemmas.
Context {scalar constraint : Type}.
Local Abbreviation Tensor := (Torch.Tensor scalar).
Local Abbreviation Transform := (Torch.Transform scalar constraint).
Local Abbreviation pyobj := (Torch.pyobj scalar constraint).
Local Abbreviation instance := (JointTransform.instance scalar constraint).
Local Abbreviation world := (Eff.world scalar).

Implicit Types (self : instance) (w : world) (x y : Py.loc).
Implicit Types (xd yd : gmap string Tensor) (reg : gmap string Transform).

Lemma elem_of_calls (e : string → Tensor → Eff.event scalar) reg xd ev :
  ev ∈ calls e reg xd ↔ ∃ k t, reg !! k = Some t ∧ ev = e k (xd !!! k).
Proof.
  unfold calls. rewrite list_elem_of_fmap. split.
  - intros [[k t] [-> Hin]]. apply elem_of_map_to_list in Hin. eauto.
  - intros (k & t & Hk & ->). exists (k, t). split; [done|].
    by apply elem_of_map_to_list.
Qed.

Lemma NoDup_calls (e : string → Tensor → Eff.event scalar) reg xd :
  (∀ k k' v v', e k v = e k' v' → k = k') → NoDup (calls e reg xd).
Proof.
  intros Hinj. unfold calls. apply NoDup_fmap_2_strong; [|apply NoDup_map_to_list].
  intros [k t] [k' t'] Hin Hin' Heq. simpl in Heq.
  apply Hinj in Heq as <-.
  apply elem_of_map_to_list in Hin, Hin'. congruence.
Qed.

Lemma length_calls (e : string → Tensor → Eff.event scalar) reg xd :
  length (calls e reg xd) = size reg.
Proof. unfold calls. by rewrite length_fmap, length_map_to_list. Qed.

(** What the log of a covered container looks like, in terms of the
    fields that are present. *)
Lemma calls_present (e : string → Tensor → Eff.event scalar) reg xd ev :
  dom reg ⊆ dom xd →
  ev ∈ calls e reg xd
  ↔ ∃ k t v, reg !! k = Some t ∧ xd !! k = Some v ∧ ev = e k v.
Proof.
  intros Hsub. rewrite elem_of_calls. split.
  - intros (k & t & Hk & ->). exists k, t, (xd !!! k). split; [done|].
    split; [|done]. apply (lookup_covered xd (dom reg)); [done|].
    apply elem_of_dom; eauto.
  - intros (k & t & v & Hk & Hv & ->). exists k, t. split; [done|].
    by rewrite (lookup_total_correct _ _ _ Hv).
Qed.

(** X1: [domain] and [codomain] return a dictionary with exactly the keys
    of the registry, each key holding the domain, respectively codomain,
    of its transform; a key outside the registry has no entry, and the
    store and the log are left alone. *)
Theorem domain_codomain_fields self w :
  ∃ dm cm,
    JointTransform.domain self w = (inr dm, w)
    ∧ JointTransform.codomain self w = (inr cm, w)
    ∧ dom dm = dom (JointTransform.transformations self)
    ∧ dom cm = dom (JointTransform.transformations self)
    ∧ (∀ k t, JointTransform.transformations self !! k = Some t →
              dm !! k = Some (Torch.domain t) ∧ cm !! k = Some (Torch.codomain t))
    ∧ (∀ k, JointTransform.transformations self !! k = None →
            dm !! k = None ∧ cm !! k = None).
Proof.
  eexists _, _. split; [apply domain_run|]. split; [apply codomain_run|].
  split; [by rewrite dom_fmap_L|]. split; [by rewrite dom_fmap_L|].
  split; intros k; [intros t|]; intros Hk; by rewrite !lookup_fmap, Hk.
Qed.

(** X2: when the keys of the container cover the registry and every
    registered transform undoes its inverse, applying [_call] to the
    result of [_inverse] gives a container equal to the input. *)
Theorem call_after_inverse_roundtrip self y yd w :
  Eff.heap w !! y = Some yd →
  dom (JointTransform.transformations self) ⊆ dom yd →
  (∀ k t, JointTransform.transformations self !! k = Some t →
          ∀ v, Torch.call t (Torch.inv t v) = v) →
  ∃ r w1 r' w2,
    JointTransform._inverse self y w = (inr r, w1)
    ∧ JointTransform._call self r w1 = (inr r', w2)
    ∧ Eff.heap w2 !! r' = Some yd.
Proof.
  intros Hy Hsub Hinv. pose proof (fields_valid _ _ _ Hy) as Hf.
  assert (Hsub' : dom (JointTransform.transformations self)
                  ⊆ dom (mapped Torch.inv (JointTransform.transformations self) yd))
    by (by rewrite dom_mapped).
  eexists _, _, _, _.
  split; [apply _inverse_run; by rewrite Hf|].
  split; [apply _call_run; by rewrite fields_insert_eq, Hf|].
  simpl. rewrite lookup_insert_eq, fields_insert_eq, Hf. f_equal.
  apply map_eq. intros k. rewrite !lookup_mapped by done.
  destruct (JointTransform.transformations self !! k) as [t|] eqn:Hk; [|done].
  destruct (yd !! k) as [v|]; simpl; [|done].
  f_equal. by apply (Hinv k t).
Qed.

(** X3: a successful [_call] appends to the log exactly one call per
    registered key, made on the field of the input container under that
    key, and nothing else. *)
Theorem call_log_once self x xd w :
  Eff.heap w !! x = Some xd →
  dom (JointTransform.transformations self) ⊆ dom xd →
  ∃ evs,
    Eff.log (JointTransform._call self x w).2 = Eff.log w ++ evs
    ∧ NoDup evs
    ∧ length evs = size (JointTransform.transformations self)
    ∧ ∀ ev, ev ∈ evs ↔
        ∃ k t v, JointTransform.transformations self !! k = Some t
                 ∧ xd !! k = Some v ∧ ev = Eff.EvCall k v.
Proof.
  intros Hx Hsub. pose proof (fields_valid _ _ _ Hx) as Hf.
  eexists. rewrite _call_run by (by rewrite Hf). simpl. rewrite Hf.
  split; [done|]. split; [|split].
  - apply NoDup_calls. by intros ???? [= -> _].
  - apply length_calls.
  - intros ev. by apply calls_present.
Qed.

(** X4: a successful [_inverse] appends to the log exactly one inverse
    call per registered key, made on the field of the input container
    under that key, and nothing else. *)
Theorem inverse_log_once self y yd w :
  Eff.heap w !! y = Some yd →
  dom (JointTransform.transformations self) ⊆ dom yd →
  ∃ evs,
    Eff.log (JointTransform._inverse self y w).2 = Eff.log w ++ evs
    ∧ NoDup evs
    ∧ length evs = size (JointTransform.transformations self)
    ∧ ∀ ev, ev ∈ evs ↔
        ∃ k t v, JointTransform.transformations self !! k = Some t
                 ∧ yd !! k = Some v ∧ ev = Eff.EvInv k v.
Proof.
  intros Hy Hsub. pose proof (fields_valid _ _ _ Hy) as Hf.
  eexists. rewrite _inverse_run by (by rewrite Hf). simpl. rewrite Hf.
  split; [done|]. split; [|split].
  - apply NoDup_calls. by intros ???? [= -> _].
  - apply length_calls.
  - intros ev. by apply calls_present.
Qed.

Lemma elem_of_jacobian_calls reg xd yd (l : list string) ev :
  ev ∈ mjoin (jacobian_calls reg xd yd <$> l)
  ↔ ∃ k t, k ∈ l ∧ reg !! k = Some t
           ∧ ev = Eff.EvLogAbsDetJacobian k (xd !!! k) (yd !!! k).
Proof.
  rewrite list_elem_of_join. split.
  - intros (evs & Hev & Hevs). apply list_elem_of_fmap in Hevs as [k [-> Hk]].
    unfold jacobian_calls in Hev.
    destruct (reg !! k) as [t|] eqn:Hreg; [|by apply not_elem_of_nil in Hev].
    apply list_elem_of_singleton in Hev as ->. eauto.
  - intros (k & t & Hk & Hreg & ->). exists (jacobian_calls reg xd yd k). split.
    + unfold jacobian_calls. rewrite Hreg. by apply list_elem_of_singleton.
    + apply list_elem_of_fmap. eauto.
Qed.

Lemma NoDup_jacobian_calls reg xd yd (l : list string) :
  NoDup l → NoDup (mjoin (jacobian_calls reg xd yd <$> l)).
Proof.
  induction l as [|k l IH]; intros Hnd; csimpl; [constructor|].
  inversion_clear Hnd as [|?? Hk Hl]. apply NoDup_app.
  split; [|split; [|by apply IH]].
  - unfold jacobian_calls. destruct (reg !! k); [apply NoDup_singleton|constructor].
  - intros ev Hev Hin. apply elem_of_jacobian_calls in Hin as (k' & t' & Hk' & _ & ->).
    unfold jacobian_calls in Hev.
    destruct (reg !! k); [|by apply not_elem_of_nil in Hev].
    apply list_elem_of_singleton in Hev. by injection Hev as <- _ _.
Qed.

(** X5: a successful [log_abs_det_jacobian] appends to the log exactly
    one Jacobian call per registered key, made on the fields of [x] and
    [y] under that key; a key outside the registry causes no call. *)
Theorem log_abs_det_jacobian_log_once one self x y xd yd w :
  Eff.heap w !! x = Some xd →
  Eff.heap w !! y = Some yd →
  dom xd = dom yd →
  dom (JointTransform.transformations self) ⊆ dom xd →
  ∃ evs,
    Eff.log (JointTransform.log_abs_det_jacobian one self x y w).2
      = Eff.log w ++ evs
    ∧ NoDup evs
    ∧ ∀ ev, ev ∈ evs ↔
        ∃ k t xv yv, JointTransform.transformations self !! k = Some t
                     ∧ xd !! k = Some xv ∧ yd !! k = Some yv
                     ∧ ev = Eff.EvLogAbsDetJacobian k xv yv.
Proof.
  intros Hx Hy Heq Hsub.
  pose proof (fields_valid _ _ _ Hx) as Hfx.
  pose proof (fields_valid _ _ _ Hy) as Hfy.
  eexists. rewrite log_abs_det_jacobian_run by (by rewrite Hfx, ?Hfy).
  simpl. rewrite Hfx, Hfy. split; [done|].
  split; [apply NoDup_jacobian_calls, NoDup_elements|].
  intros ev. rewrite elem_of_jacobian_calls. split.
  - intros (k & t & Hk & Hreg & ->). apply elem_of_elements in Hk.
    exists k, t, (xd !!! k), (yd !!! k). split; [done|].
    split; [by apply (lookup_covered xd (dom xd))|].
    split; [|done]. apply (lookup_covered yd (dom yd)); [done|by rewrite <- Heq].
  - intros (k & t & xv & yv & Hreg & Hxv & Hyv & ->). exists k, t.
    split; [apply elem_of_elements, elem_of_dom; eauto|]. split; [done|].
    by rewrite (lookup_total_correct _ _ _ Hxv), (lookup_total_correct _ _ _ Hyv).
Qed.


(** The two shapes a result of the three methods can have. *)
Lemma grows_by_result (res : (Py.exn + Py.loc) * world) w :
  (∃ e, res = (inl e, w))
  ∨ (∃ v lg, res = (inr (fresh (dom (Eff.heap w))),
                    Eff.World (<[fresh (dom (Eff.heap w)) := v]> (Eff.heap w)) lg)) →
  Eff.heap w ⊆ Eff.heap res.2
  ∧ ∀ l, is_Some (Eff.heap res.2 !! l) →
         is_Some (Eff.heap w !! l) ∨ res.1 = inr l.
Proof.
  intros [[e ->] | (v & lg & ->)]; simpl.
  - split; [done|]. by left.
  - split.
    + apply insert_subseteq, not_elem_of_dom, is_fresh.
    + intros l Hl. destruct (decide (l = fresh (dom (Eff.heap w)))) as [->|Hne].
      * by right.
      * left. by rewrite lookup_insert_ne in Hl.
Qed.

(** X7: each of the three methods leaves every object of the store as it
    was and adds at most one object, the container it returns. *)
Theorem store_grows_by_result one self x y w :
  (Eff.heap w ⊆ Eff.heap (JointTransform._call self x w).2
   ∧ ∀ l, is_Some (Eff.heap (JointTransform._call self x w).2 !! l) →
          is_Some (Eff.heap w !! l) ∨ (JointTransform._call self x w).1 = inr l)
  ∧ (Eff.heap w ⊆ Eff.heap (JointTransform._inverse self x w).2
     ∧ ∀ l, is_Some (Eff.heap (JointTransform._inverse self x w).2 !! l) →
            is_Some (Eff.heap w !! l) ∨ (JointTransform._inverse self x w).1 = inr l)
  ∧ (Eff.heap w ⊆ Eff.heap (JointTransform.log_abs_det_jacobian one self x y w).2
     ∧ ∀ l, is_Some (Eff.heap (JointTransform.log_abs_det_jacobian one self x y w).2 !! l) →
            is_Some (Eff.heap w !! l)
            ∨ (JointTransform.log_abs_det_jacobian one self x y w).1 = inr l).
Proof.
  split; [|split]; apply grows_by_result.
  - destruct (decide (dom (JointTransform.transformations self)
                        ⊆ dom (TensorDict.fields w x))) as [Hsub|Hsub].
    + right. rewrite _call_run by done. by eexists _, _.
    + left. rewrite _call_fail by done. by eexists.
  - destruct (decide (dom (JointTransform.transformations self)
                        ⊆ dom (TensorDict.fields w x))) as [Hsub|Hsub].
    + right. rewrite _inverse_run by done. by eexists _, _.
    + left. rewrite _inverse_fail by done. by eexists.
  - destruct (decide (dom (TensorDict.fields w x) = dom (TensorDict.fields w y)))
      as [Heq|Hne].
    + destruct (decide (dom (JointTransform.transformations self)
                          ⊆ dom (TensorDict.fields w x))) as [Hsub|Hsub].
      * right. rewrite log_abs_det_jacobian_run by done. by eexists _, _.
      * left. rewrite log_abs_det_jacobian_fail_cover by done. by eexists.
    + left. rewrite log_abs_det_jacobian_fail_keys by done. by eexists.
Qed.

(** Applying two registries with no key in common, one after the other,
    is applying their union. *)
Lemma mapped_disjoint_union (m : Transform → Tensor → Tensor) reg1 reg2 xd :
  dom reg1 ⊆ dom xd → dom reg2 ⊆ dom xd → dom reg1 ## dom reg2 →
  mapped m reg2 (mapped m reg1 xd) = mapped m (reg1 ∪ reg2) xd.
Proof.
  intros H1 H2 Hdisj. apply map_eq. intros k.
  rewrite (lookup_mapped m reg2) by (by rewrite dom_mapped).
  rewrite (lookup_mapped m reg1) by done.
  rewrite (lookup_mapped m (reg1 ∪ reg2))
    by (rewrite dom_union_L; by apply union_least).
  destruct (reg1 !! k) as [t1|] eqn:Hk1, (reg2 !! k) as [t2|] eqn:Hk2.
  - exfalso. apply (Hdisj k); apply elem_of_dom; eauto.
  - by rewrite (lookup_union_Some_l _ _ _ _ Hk1).
  - by rewrite (lookup_union_r _ _ _ Hk1), Hk2.
  - by rewrite (lookup_union_r _ _ _ Hk1), Hk2.
Qed.

(** Two [_call]s in a row, on the container and on the result. *)
Lemma _call_twice self1 self2 x xd w :
  Eff.heap w !! x = Some xd →
  dom (JointTransform.transformations self1) ⊆ dom xd →
  dom (JointTransform.transformations self2) ⊆ dom xd →
  ∃ r1 w1 r2 w2,
    JointTransform._call self1 x w = (inr r1, w1)
    ∧ JointTransform._call self2 r1 w1 = (inr r2, w2)
    ∧ Eff.heap w2 !! r2
      = Some (mapped Torch.call (JointTransform.transformations self2)
                (mapped Torch.call (JointTransform.transformations self1) xd)).
Proof.
  intros Hx H1 H2. pose proof (fields_valid _ _ _ Hx) as Hf.
  eexists _, _, _, _.
  split; [apply _call_run; by rewrite Hf|].
  split; [apply _call_run; by rewrite fields_insert_eq, Hf, dom_mapped|].
  simpl. by rewrite lookup_insert_eq, fields_insert_eq, Hf.
Qed.

(** X8: two instances whose registries have no key in common can be
    applied in either order: both orders succeed and return containers
    with the same fields. *)
Theorem call_disjoint_commute self1 self2 x xd w :
  Eff.heap w !! x = Some xd →
  dom (JointTransform.transformations self1) ⊆ dom xd →
  dom (JointTransform.transformations self2) ⊆ dom xd →
  dom (JointTransform.transformations self1)
    ## dom (JointTransform.transformations self2) →
  ∃ r1 w1 r2 w2 s1 v1 s2 v2 fd,
    JointTransform._call self1 x w = (inr r1, w1)
    ∧ JointTransform._call self2 r1 w1 = (inr r2, w2)
    ∧ JointTransform._call self2 x w = (inr s1, v1)
    ∧ JointTransform._call self1 s1 v1 = (inr s2, v2)
    ∧ Eff.heap w2 !! r2 = Some fd
    ∧ Eff.heap v2 !! s2 = Some fd.
Proof.
  intros Hx H1 H2 Hdisj.
  destruct (_call_twice self1 self2 x xd w Hx H1 H2)
    as (r1 & w1 & r2 & w2 & Ha & Hb & Hfd).
  destruct (_call_twice self2 self1 x xd w Hx H2 H1)
    as (s1 & v1 & s2 & v2 & Hc & Hd & Hfd').
  eexists r1, w1, r2, w2, s1, v1, s2, v2, _.
  do 4 (split; [done|]). split; [exact Hfd|].
  rewrite Hfd'. f_equal.
  rewrite !mapped_disjoint_union by done.
  f_equal. apply map_union_comm, map_disjoint_dom. done.
Qed.

(** X9: an instance whose registry is the union of two registries with
    no key in common returns, in one [_call], a container with the fields
    that applying the two registries one after the other gives. *)
Theorem call_disjoint_union (reg1 reg2 : gmap string Transform) (n1 n2 n : Z)
    x xd w :
  Eff.heap w !! x = Some xd →
  dom reg1 ⊆ dom xd →
  dom reg2 ⊆ dom xd →
  dom reg1 ## dom reg2 →
  ∃ r1 w1 r2 w2 r w' fd,
    JointTransform._call (JointTransform.Build reg1 n1) x w = (inr r1, w1)
    ∧ JointTransform._call (JointTransform.Build reg2 n2) r1 w1 = (inr r2, w2)
    ∧ JointTransform._call (JointTransform.Build (reg1 ∪ reg2) n) x w = (inr r, w')
    ∧ Eff.heap w2 !! r2 = Some fd
    ∧ Eff.heap w' !! r = Some fd.
Proof.
  intros Hx H1 H2 Hdisj. pose proof (fields_valid _ _ _ Hx) as Hf.
  destruct (_call_twice (JointTransform.Build reg1 n1) (JointTransform.Build reg2 n2)
              x xd w Hx H1 H2)
    as (r1 & w1 & r2 & w2 & Ha & Hb & Hfd).
  eexists r1, w1, r2, w2, _, _, _.
  do 2 (split; [done|]).
  split; [apply _call_run; simpl; rewrite Hf, dom_union_L; by apply union_least|].
  split; [exact Hfd|].
  simpl. rewrite lookup_insert_eq, Hf. f_equal.
  symmetry. by apply mapped_disjoint_union.
Qed.


Lemma dom_checked (d : gmap string pyobj) :
  forallb Torch.isinstance_Transform (JointTransform.values d) = true →
  dom (omap Torch.as_Transform d) = dom d.
Proof.
  intros Hall. apply forallb_values in Hall.
  apply set_eq. intros k. rewrite !elem_of_dom, lookup_omap.
  destruct (d !! k) as [o|] eqn:Hk; simpl.
  - specialize (Hall k o Hk). destruct o; [|done]. simpl. split; eauto.
  - split; by intros [? ?].
Qed.

(** X11: whenever construction returns an instance, the cache size is 0
    or 1 and is the one the instance keeps, the registry has exactly the
    keys of the dictionary passed in, every value passed in was a
    [Transform], and the store and the log are as before. *)
Theorem init_success_invariant (d : gmap string pyobj) (n : Z) w self w' :
  JointTransform.__init__ d n w = (inr self, w') →
  w' = w
  ∧ (n = 0%Z ∨ n = 1%Z)
  ∧ JointTransform._cache_size self = n
  ∧ dom (JointTransform.transformations self) = dom d
  ∧ ∀ k o, d !! k = Some o → ∃ t, o = Torch.PyTransform t.
Proof.
  destruct (forallb Torch.isinstance_Transform (JointTransform.values d)) eqn:Hall.
  - assert (Hval : ∀ k o, d !! k = Some o → ∃ t, o = Torch.PyTransform t).
    { intros k o Hk. apply forallb_values in Hall. specialize (Hall k o Hk).
      destruct o; [eauto|done]. }
    destruct (decide (n = 0%Z)) as [->|H0]; [|destruct (decide (n = 1%Z)) as [->|H1]].
    + rewrite init_zero by done. intros [= <- <-]. simpl.
      split; [done|]. split; [by left|]. split; [done|]. split; [by apply dom_checked|done].
    + rewrite init_one by done. intros [= <- <-]. simpl.
      split; [done|]. split; [by right|]. split; [done|].
      split; [by rewrite dom_fmap_L, dom_checked|done].
    + by rewrite init_other.
  - by rewrite init_assert.
Qed.

Lemma jacobian_term_agree one reg xd yd yd' key :
  (∀ k, k ∈ dom reg → yd !! k = yd' !! k) →
  jacobian_term one reg xd yd key = jacobian_term one reg xd yd' key
  ∧ jacobian_calls reg xd yd key = jacobian_calls reg xd yd' key.
Proof.
  intros Hagree. unfold jacobian_term, jacobian_calls.
  destruct (reg !! key) as [t|] eqn:Hk; [|done].
  assert (Hy : yd !!! key = yd' !!! key).
  { rewrite !lookup_total_alt, Hagree; [done|]. apply elem_of_dom; eauto. }
  by rewrite Hy.
Qed.

(** X12: [log_abs_det_jacobian] reads [y] only under registered keys: two
    containers with the same keys that agree on every registered key give
    the same outcome, result, store and log alike. *)
Theorem jacobian_ignores_unregistered_y one self x y y' yd yd' w :
  Eff.heap w !! y = Some yd →
  Eff.heap w !! y' = Some yd' →
  dom yd = dom yd' →
  (∀ k, k ∈ dom (JointTransform.transformations self) → yd !! k = yd' !! k) →
  JointTransform.log_abs_det_jacobian one self x y w
  = JointTransform.log_abs_det_jacobian one self x y' w.
Proof.
  intros Hy Hy' Hdom Hagree.
  pose proof (fields_valid _ _ _ Hy) as Hfy.
  pose proof (fields_valid _ _ _ Hy') as Hfy'.
  destruct (decide (dom (TensorDict.fields w x) = dom yd)) as [Heq|Hne].
  - destruct (decide (dom (JointTransform.transformations self)
                        ⊆ dom (TensorDict.fields w x))) as [Hsub|Hsub].
    + rewrite !log_abs_det_jacobian_run by (by rewrite ?Hfy, ?Hfy', <- ?Hdom).
      rewrite Hfy, Hfy'. unfold jacobian_fields.
      assert (Hterms : ∀ l : list string,
                (λ key, (key, jacobian_term one (JointTransform.transformations self)
                                (TensorDict.fields w x) yd key)) <$> l
                = (λ key, (key, jacobian_term one (JointTransform.transformations self)
                                  (TensorDict.fields w x) yd' key)) <$> l).
      { intros l. apply list_fmap_ext. intros i key _. f_equal.
        by apply jacobian_term_agree. }
      assert (Hcalls : ∀ l : list string,
                jacobian_calls (JointTransform.transformations self)
                  (TensorDict.fields w x) yd <$> l
                = jacobian_calls (JointTransform.transformations self)
                    (TensorDict.fields w x) yd' <$> l).
      { intros l. apply list_fmap_ext. intros i key _.
        by apply jacobian_term_agree. }
      by rewrite Hterms, Hcalls.
    + by rewrite !log_abs_det_jacobian_fail_cover by (by rewrite ?Hfy, ?Hfy', <- ?Hdom).
  - by rewrite !log_abs_det_jacobian_fail_keys by (by rewrite ?Hfy, ?Hfy', <- ?Hdom).
Qed.

(** X13: an instance whose registry is the union of two registries with
    no key in common is bijective exactly when instances over the two
    registries both are. *)
Theorem bijective_union (reg1 reg2 : gmap string Transform) (n1 n2 n : Z) w :
  dom reg1 ## dom reg2 →
  ∃ b b1 b2,
    JointTransform.bijective (JointTransform.Build (reg1 ∪ reg2) n) w = (inr b, w)
    ∧ JointTransform.bijective (JointTransform.Build reg1 n1) w = (inr b1, w)
    ∧ JointTransform.bijective (JointTransform.Build reg2 n2) w = (inr b2, w)
    ∧ b = b1 && b2.
Proof.
  intros Hdisj. eexists _, _, _. rewrite !bijective_run. simpl.
  do 3 (split; [done|]).
  apply eq_true_iff_eq. rewrite andb_true_iff, !forallb_values.
  apply map_Forall_union. by apply map_disjoint_dom.
Qed.
End FurtherLemmas.

(** * The further properties at concrete inputs *)

Section FurtherInstances.

Lemma covered_b_x1 :
  dom (JointTransform.transformations Example.self_b) ⊆ dom Example.x1.
Proof. apply (bool_decide_unpack _). vm_compute. exact I. Defined.

Lemma disjoint_a_b :
  dom (JointTransform.transformations Example.self_a)
    ## dom (JointTransform.transformations Example.self_b).
Proof. apply (bool_decide_unpack _). vm_compute. exact I. Defined.

Lemma domain_codomain_fields_witness :
  ∃ dm cm,
    JointTransform.domain Example.self_abs Example.w0 = (inr dm, Example.w0)
    ∧ JointTransform.codomain Example.self_abs Example.w0 = (inr cm, Example.w0)
    ∧ dm !! "b" = Some "real" ∧ cm !! "b" = Some "positive".
Proof.
  destruct (domain_codomain_fields Example.self_abs Example.w0)
    as (dm & cm & Hd & Hc & _ & _ & Hreg & _).
  exists dm, cm. split; [exact Hd|]. split; [exact Hc|].
  apply (Hreg "b" Example.Abs). reflexivity.
Defined.

Lemma call_after_inverse_roundtrip_witness :
  ∃ r w1 r' w2,
    JointTransform._inverse Example.self_a 1%positive Example.w0 = (inr r, w1)
    ∧ JointTransform._call Example.self_a r w1 = (inr r', w2)
    ∧ Eff.heap w2 !! r' = Some Example.x1.
Proof.
  apply (call_after_inverse_roundtrip Example.self_a 1%positive Example.x1 Example.w0).
  - reflexivity.
  - exact covered_a_x1.
  - intros k t Hk. simpl in Hk. apply lookup_singleton_Some in Hk as [_ <-].
    intros v. apply Shift_inverse.
Defined.

Lemma call_log_once_witness :
  ∃ evs,
    Eff.log (JointTransform._call Example.self_a 1%positive Example.w0).2
      = Eff.log Example.w0 ++ evs
    ∧ length evs = 1
    ∧ Eff.EvCall "a" (Example.vec [0%Z]) ∈ evs.
Proof.
  destruct (call_log_once Example.self_a 1%positive Example.x1 Example.w0
              eq_refl covered_a_x1) as (evs & Hlog & _ & Hlen & Hin).
  exists evs. split; [exact Hlog|]. split; [exact Hlen|].
  apply Hin. exists "a", Example.Shift, (Example.vec [0%Z]).
  split; [reflexivity|]. split; reflexivity.
Defined.

Lemma inverse_log_once_witness :
  ∃ evs,
    Eff.log (JointTransform._inverse Example.self_a 1%positive Example.w0).2
      = Eff.log Example.w0 ++ evs
    ∧ length evs = 1
    ∧ Eff.EvInv "a" (Example.vec [0%Z]) ∈ evs.
Proof.
  destruct (inverse_log_once Example.self_a 1%positive Example.x1 Example.w0
              eq_refl covered_a_x1) as (evs & Hlog & _ & Hlen & Hin).
  exists evs. split; [exact Hlog|]. split; [exact Hlen|].
  apply Hin. exists "a", Example.Shift, (Example.vec [0%Z]).
  split; [reflexivity|]. split; reflexivity.
Defined.

Lemma log_abs_det_jacobian_log_once_witness :
  ∃ evs,
    Eff.log (JointTransform.log_abs_det_jacobian 1%Z Example.self_a
               1%positive 1%positive Example.w0).2
      = Eff.log Example.w0 ++ evs
    ∧ NoDup evs
    ∧ Eff.EvLogAbsDetJacobian "a" (Example.vec [0%Z]) (Example.vec [0%Z]) ∈ evs.
Proof.
  destruct (log_abs_det_jacobian_log_once 1%Z Example.self_a 1%positive 1%positive
              Example.x1 Example.x1 Example.w0 eq_refl eq_refl eq_refl covered_a_x1)
    as (evs & Hlog & Hnd & Hin).
  exists evs. split; [exact Hlog|]. split; [exact Hnd|].
  apply Hin. exists "a", Example.Shift, (Example.vec [0%Z]), (Example.vec [0%Z]).
  split; [reflexivity|]. split; [reflexivity|]. split; reflexivity.
Defined.


Lemma store_grows_by_result_witness :
  Eff.heap Example.w0
    ⊆ Eff.heap (JointTransform._call Example.self_a 1%positive Example.w0).2.
Proof.
  apply (store_grows_by_result 1%Z Example.self_a 1%positive 1%positive Example.w0).
Defined.

Lemma call_disjoint_commute_witness :
  ∃ r1 w1 r2 w2 s1 v1 s2 v2 fd,
    JointTransform._call Example.self_a 1%positive Example.w0 = (inr r1, w1)
    ∧ JointTransform._call Example.self_b r1 w1 = (inr r2, w2)
    ∧ JointTransform._call Example.self_b 1%positive Example.w0 = (inr s1, v1)
    ∧ JointTransform._call Example.self_a s1 v1 = (inr s2, v2)
    ∧ Eff.heap w2 !! r2 = Some fd
    ∧ Eff.heap v2 !! s2 = Some fd.
Proof.
  apply (call_disjoint_commute Example.self_a Example.self_b 1%positive
           Example.x1 Example.w0).
  - reflexivity.
  - exact covered_a_x1.
  - exact covered_b_x1.
  - exact disjoint_a_b.
Defined.

Lemma call_disjoint_union_witness :
  ∃ r1 w1 r2 w2 r w' fd,
    JointTransform._call Example.self_a 1%positive Example.w0 = (inr r1, w1)
    ∧ JointTransform._call Example.self_b r1 w1 = (inr r2, w2)
    ∧ JointTransform._call
        (JointTransform.Build ({[ "a" := Example.Shift ]} ∪ {[ "b" := Example.Shift ]}) 0)
        1%positive Example.w0 = (inr r, w')
    ∧ Eff.heap w2 !! r2 = Some fd
    ∧ Eff.heap w' !! r = Some fd.
Proof.
  apply (call_disjoint_union {[ "a" := Example.Shift ]} {[ "b" := Example.Shift ]}
           0 0 0 1%positive Example.x1 Example.w0).
  - reflexivity.
  - exact covered_a_x1.
  - exact covered_b_x1.
  - exact disjoint_a_b.
Defined.


Lemma init_success_invariant_witness :
  dom (JointTransform.transformations Example.self_a)
  = dom (Torch.PyTransform <$> ({[ "a" := Example.Shift ]}
                                  : gmap string (Torch.Transform Z string))).
Proof.
  apply (init_success_invariant
           (Torch.PyTransform <$> ({[ "a" := Example.Shift ]}
                                     : gmap string (Torch.Transform Z string)))
           0 Example.w0 Example.self_a Example.w0).
  rewrite init_zero by apply isinstance_all_transforms.
  by rewrite checked_all_transforms.
Defined.

Lemma jacobian_ignores_unregistered_y_witness :
  JointTransform.log_abs_det_jacobian 1%Z Example.self_a 1%positive 1%positive
    Example.w1
  = JointTransform.log_abs_det_jacobian 1%Z Example.self_a 1%positive 2%positive
      Example.w1.
Proof.
  apply (jacobian_ignores_unregistered_y 1%Z Example.self_a 1%positive
           1%positive 2%positive Example.x1 Example.x3 Example.w1).
  - reflexivity.
  - reflexivity.
  - apply (bool_decide_unpack _). vm_compute. exact I.
  - intros k Hk. simpl in Hk.
    rewrite dom_singleton_L in Hk. apply elem_of_singleton in Hk as ->.
    reflexivity.
Defined.

Lemma bijective_union_witness :
  ∃ b b1 b2,
    JointTransform.bijective
      (JointTransform.Build ({[ "a" := Example.Shift ]} ∪ {[ "b" := Example.Abs ]}) 0)
      Example.w0 = (inr b, Example.w0)
    ∧ JointTransform.bijective (JointTransform.Build {[ "a" := Example.Shift ]} 0)
        Example.w0 = (inr b1, Example.w0)
    ∧ JointTransform.bijective (JointTransform.Build {[ "b" := Example.Abs ]} 0)
        Example.w0 = (inr b2, Example.w0)
    ∧ b = b1 && b2.
Proof.
  apply (bijective_union {[ "a" := Example.Shift ]} {[ "b" := Example.Abs ]} 0 0 0
           Example.w0).
  apply (bool_decide_unpack _). vm_compute. exact I.
Defined.
End FurtherInstances.
